(** * Fuzzy search over records: Levenshtein distance, scoring, ranking, cache

    A shallow embedding of [src/utils/levenshtein.ts] and
    [src/utils/fuzzySearch.ts], and the properties of the specification
    checked against it.

    Conventions of the embedding.
    - A JavaScript string is the list of its code units.  Code units are
      taken in the range 0..255 ([ascii]); on that range [toLowerCase],
      the class [[^a-z0-9 ]] and the white space class [\s] are modelled
      exactly.
    - A JavaScript number is a [Z] where the program only produces
      integers; the score of a record, and the threshold that the caller
      passes, also take the value [Infinity].
      The one floating point product of the program ([length * 0.45]) is
      modelled with its binary64 rounding.
    - A [Uint16Array] is a list of [Z] whose stores reduce modulo 2^16.
    - Loops are folds over the index range they run through; the
      module-wide [cache] is threaded through [fuzzySearch] explicitly. *)

From Stdlib Require Import ZArith Ascii String Lia.
From stdpp Require Import base list strings pretty gmap sorting.

Local Open Scope Z_scope.

(** ** JavaScript strings *)

Abbreviation jsstr := (list ascii).

(** A string literal as a list of code units. *)
Definition js (s : string) : jsstr := list_ascii_of_string s.

Definition charCode (c : ascii) : Z := Z.of_N (N_of_ascii c).

Definition inRange (lo hi : Z) (c : ascii) : bool :=
  (lo <=? charCode c) && (charCode c <=? hi).

(** [String.prototype.toLowerCase] on one code unit of the range 0..255:
    A-Z and the Latin-1 capitals U+00C0..U+00DE (U+00D7, the multiplication
    sign, excepted) move up by 32; every other code unit is kept. *)
Definition toLowerChar (c : ascii) : ascii :=
  if inRange 65 90 c || (inRange 192 222 c && negb (charCode c =? 215))
  then ascii_of_N (N_of_ascii c + 32)
  else c.

Definition toLowerCase (s : jsstr) : jsstr := map toLowerChar s.

(** The negated class of [/[^a-z0-9 ]+/g]: the characters that are kept. *)
Definition isAlnumOrSpace (c : ascii) : bool :=
  inRange 97 122 c || inRange 48 57 c || (charCode c =? 32).

(** [str.replace(/[^a-z0-9 ]+/g, "")]: every maximal run of characters
    outside the class is deleted, that is, exactly the characters of the
    class remain. *)
Definition stripNonAlnum (s : jsstr) : jsstr := filter (fun c => Is_true (isAlnumOrSpace c)) s.

(** White space and line terminators of ECMAScript below U+0100:
    TAB, LF, VT, FF, CR, SPACE and NO-BREAK SPACE.  This is the set that
    [trim] strips and that [\s] matches. *)
Definition isWhiteSpace (c : ascii) : bool :=
  inRange 9 13 c || (charCode c =? 32) || (charCode c =? 160).

Fixpoint dropWhile {A} (p : A -> bool) (l : list A) : list A :=
  match l with
  | [] => []
  | x :: l' => if p x then dropWhile p l' else l
  end.

Definition trimStart (s : jsstr) : jsstr := dropWhile isWhiteSpace s.
Definition trimEnd (s : jsstr) : jsstr := rev (dropWhile isWhiteSpace (rev s)).
Definition trim (s : jsstr) : jsstr := trimEnd (trimStart s).

(** [normalize] of fuzzySearch.ts. *)
Definition normalize (str : jsstr) : jsstr :=
  trim (stripNonAlnum (toLowerCase str)).

(** [s.startsWith(q)] *)
Fixpoint startsWith (s q : jsstr) : bool :=
  match q, s with
  | [], _ => true
  | _ :: _, [] => false
  | d :: q', c :: s' => bool_decide (c = d) && startsWith s' q'
  end.

(** [s.includes(q)]: [q] occurs in [s] at some position. *)
Fixpoint includes (s q : jsstr) : bool :=
  startsWith s q ||
  match s with
  | [] => false
  | _ :: s' => includes s' q
  end.

(** [s.split(/\s+/)]: the pieces of [s] between maximal runs of white
    space.  A run at the very start or at the very end leaves an empty
    piece there, and the empty string splits into one empty piece.
    [cur] is the piece being read, [inSep] tells that the previous
    character belonged to a separator. *)
Fixpoint splitAux (cur : jsstr) (inSep : bool) (s : jsstr) : list jsstr :=
  match s with
  | [] => [cur]
  | c :: s' =>
      if isWhiteSpace c
      then (if inSep then splitAux [] true s' else cur :: splitAux [] true s')
      else splitAux (cur ++ [c]) false s'
  end.

Definition splitWhiteSpace (s : jsstr) : list jsstr := splitAux [] false s.

(** [arr.join(sep)] *)
Fixpoint join (sep : jsstr) (arr : list jsstr) : jsstr :=
  match arr with
  | [] => []
  | [w] => w
  | w :: rest => w ++ sep ++ join sep rest
  end.

(** [arr.slice(i, j)] for [0 <= i <= j]. *)
Definition sliceFrom {A} (arr : list A) (i j : nat) : list A :=
  take (j - i) (drop i arr).

(** ** levenshtein.ts *)

(** The conversion applied by a store into a [Uint16Array]. *)
Definition ToUint16 (v : Z) : Z := v `mod` 65536.

(** [Array.from({ length: m + 1 }, () => new Uint16Array(n + 1))]:
    [m + 1] rows of [n + 1] zeros. *)
Definition newTable (m n : nat) : list (list Z) :=
  replicate (S m) (replicate (S n) 0).

(** [dp[i][j]] as a value.  The program only reads inside the table. *)
Definition getCell (dp : list (list Z)) (i j : nat) : Z :=
  default 0 (dp !! i ≫= fun row => row !! j).

(** [dp[i][j] = v].  A store outside a typed array is ignored. *)
Definition setCell (dp : list (list Z)) (i j : nat) (v : Z) : list (list Z) :=
  alter (fun row => <[j := ToUint16 v]> row) i dp.

(** [for (let k = lo; k <= hi; k++) body], the state threaded through. *)
Definition forUpTo {St} (lo hi : nat) (body : St -> nat -> St) (s : St) : St :=
  foldl body s (seq lo (S hi - lo)).

(** The right-hand side of the assignment in the inner loop. *)
Definition cellValue (a b : jsstr) (dp : list (list Z)) (i j : nat) : Z :=
  if decide (a !! (i - 1)%nat = b !! (j - 1)%nat)
  then getCell dp (i - 1) (j - 1)
  else Z.min (Z.min (getCell dp (i - 1) (j - 1) + 1)
                    (getCell dp i (j - 1) + 1))
             (getCell dp (i - 1) j + 1).

(** The table [dp] when the three loops have run. *)
Definition levenshteinTable (a b : jsstr) : list (list Z) :=
  let m := length a in
  let n := length b in
  let dp := newTable m n in
  let dp := forUpTo 0 m (fun dp i => setCell dp i 0 (Z.of_nat i)) dp in
  let dp := forUpTo 0 n (fun dp j => setCell dp 0 j (Z.of_nat j)) dp in
  forUpTo 1 m (fun dp i =>
    forUpTo 1 n (fun dp j => setCell dp i j (cellValue a b dp i j)) dp) dp.

Definition levenshtein (a b : jsstr) : Z :=
  let m := length a in
  let n := length b in
  if (m =? 0)%nat then Z.of_nat n
  else if (n =? 0)%nat then Z.of_nat m
  else getCell (levenshteinTable a b) m n.

(** ** fuzzySearch.ts *)

(** The values a property of a record may hold (numbers and nested
    objects are left out: no property below needs their conversion to a
    string). *)
Inductive JSValue :=
  | JSUndefined
  | JSNull
  | JSBool (b : bool)
  | JSString (s : jsstr).

(** A record is an object: a finite map from property names to values. *)
Abbreviation Item := (gmap string JSValue).

(** [item[key]]: a property that is absent reads as [undefined]. *)
Definition getProp (item : Item) (key : string) : JSValue :=
  default JSUndefined (item !! key).

(** [String(v)] *)
Definition ToString (v : JSValue) : jsstr :=
  match v with
  | JSUndefined => js "undefined"
  | JSNull => js "null"
  | JSBool true => js "true"
  | JSBool false => js "false"
  | JSString s => s
  end.

(** [String(n)] for an integer [n] of absolute value at most 2^53: its
    decimal digits.  (Beyond 2^53 [String] writes the shortest digits
    that read back as the same number, and from 10^21 on an exponent.) *)
Definition numberToString (n : Z) : jsstr := js (pretty n).

(** [generateNGrams(words, maxN)] *)
Definition generateNGrams (words : list jsstr) (maxN : nat) : list jsstr :=
  forUpTo 1 maxN (fun nGrams n =>
    foldl (fun nGrams i => nGrams ++ [join (js " ") (sliceFrom words i (i + n))])
          nGrams (seq 0 (S (length words) - n))) [].

(** A score, or a threshold: an integer, or [Infinity].  Every score that
    the program computes is of this kind, and so is the default
    threshold; [threshold] is a number that the caller chooses, of which
    the integers and [Infinity] are covered here. *)
Inductive Score :=
  | Fin (z : Z)
  | Infinity.

#[global] Instance Score_eq_dec : EqDecision Score.
Proof. solve_decision. Defined.

Definition Math_min (x y : Score) : Score :=
  match x, y with
  | Fin a, Fin b => Fin (Z.min a b)
  | Fin a, Infinity => Fin a
  | Infinity, _ => y
  end.

(** [s <= t] for a score [s] and a threshold [t]: [Infinity <= Infinity]
    holds. *)
Definition scoreLeb (s t : Score) : bool :=
  match s, t with
  | Fin a, Fin b => a <=? b
  | Fin _, Infinity => true
  | Infinity, Fin _ => false
  | Infinity, Infinity => true
  end.

(** [String(t)] for a threshold [t]. *)
Definition scoreToString (t : Score) : jsstr :=
  match t with
  | Fin n => numberToString n
  | Infinity => js "Infinity"
  end.

(** The object [{ item, score }] built by the scoring callback. *)
Record Scored := mkScored { item : Item; score : Score }.

(** [normalize(String(item[key]))] *)
Definition fieldValueOf (item : Item) (key : string) : jsstr :=
  normalize (ToString (getProp item key)).

(** The loop [for (const key of keys)] of the scoring callback, from the
    keys that remain and the current [bestScore]; the result is the score
    of the object that the callback returns. *)
Fixpoint scoreFields (normalizedQuery : jsstr) (queryWords : list jsstr)
    (it : Item) (keys : list string) (bestScore : Score) : Score :=
  match keys with
  | [] => bestScore
  | key :: keys' =>
      let fieldValue := fieldValueOf it key in
      if bool_decide (fieldValue = [])
      then scoreFields normalizedQuery queryWords it keys' bestScore
      else if bool_decide (fieldValue = normalizedQuery) then Fin 0
      else if startsWith fieldValue normalizedQuery then Fin 1
      else
        let bestScore :=
          if includes fieldValue normalizedQuery
          then Math_min bestScore (Fin 2) else bestScore in
        let fieldWords := splitWhiteSpace fieldValue in
        let nGrams := generateNGrams fieldWords (length queryWords + 1) in
        let bestScore :=
          foldl (fun bestScore phrase =>
                   Math_min bestScore (Fin (levenshtein phrase normalizedQuery)))
                bestScore nGrams in
        let fullDist := levenshtein fieldValue normalizedQuery in
        let bestScore := Math_min bestScore (Fin fullDist) in
        scoreFields normalizedQuery queryWords it keys' bestScore
  end.

(** The callback of [items.map(...)]. *)
Definition scoreItem (normalizedQuery : jsstr) (queryWords : list jsstr)
    (keys : list string) (it : Item) : Scored :=
  mkScored it (scoreFields normalizedQuery queryWords it keys Infinity).

(** The comparator [(a, b) => a.score - b.score].  Only the sign of its
    result matters to [sort]; [Infinity - Infinity] is [NaN], which [sort]
    takes as [+0]. *)
Definition compareScore (a b : Scored) : Z :=
  match score a, score b with
  | Fin x, Fin y => x - y
  | Infinity, Fin _ => 1
  | Fin _, Infinity => -1
  | Infinity, Infinity => 0
  end.

(** [Array.prototype.sort] is a stable sort (ECMAScript 2019).  For a
    comparator that orders the elements consistently the outcome is
    determined: the sorted arrangement in which elements that compare
    equal keep their order.  It is computed here by insertion. *)
Fixpoint insertSorted {A} (cmp : A -> A -> Z) (x : A) (l : list A) : list A :=
  match l with
  | [] => [x]
  | y :: l' => if cmp x y <=? 0 then x :: l else y :: insertSorted cmp x l'
  end.

Definition sortBy {A} (cmp : A -> A -> Z) (l : list A) : list A :=
  foldr (insertSorted cmp) [] l.

(** [arr.slice(0, limit)]: a negative [limit] counts from the end. *)
Definition slice0 {A} (arr : list A) (limit : Z) : list A :=
  let len := Z.of_nat (length arr) in
  let final := if limit <? 0 then Z.max (len + limit) 0 else Z.min limit len in
  take (Z.to_nat final) arr.

(** *** The default threshold

    [normalizedQuery.length * 0.45] is a product of binary64 numbers.  A
    non-negative finite binary64 value is written [mant * 2^expo]. *)
Record binary64 := B64 { mant : Z; expo : Z }.

(** Rounding of [m * 2^e] ([m >= 0]) to 53 significant bits, to nearest,
    ties to even. *)
Definition round53 (m e : Z) : binary64 :=
  let s := Z.log2 m + 1 - 53 in
  if s <=? 0 then B64 m e
  else
    let q := m / 2 ^ s in
    let r := m `mod` 2 ^ s in
    let up := (2 ^ s <? 2 * r) || ((2 * r =? 2 ^ s) && Z.odd q) in
    B64 (if up then q + 1 else q) (e + s).

Definition b64_mul (x y : binary64) : binary64 :=
  round53 (mant x * mant y) (expo x + expo y).

(** The literal [0.45]: the binary64 number nearest to 45/100. *)
Definition b64_0_45 : binary64 := B64 8106479329266893 (-54).

(** The length of a string as a binary64 number (exact below 2^53). *)
Definition b64_of_length (n : nat) : binary64 := B64 (Z.of_nat n) 0.

(** [Math.floor] of a non-negative binary64 number. *)
Definition Math_floor (x : binary64) : Z :=
  if 0 <=? expo x then mant x * 2 ^ expo x else mant x / 2 ^ (- expo x).

(** [threshold ?? Math.max(3, Math.floor(normalizedQuery.length * 0.45))] *)
Definition effectiveThresholdOf (threshold : option Score)
    (normalizedQuery : jsstr) : Score :=
  match threshold with
  | Some t => t
  | None =>
      Fin (Z.max 3 (Math_floor
             (b64_mul (b64_of_length (length normalizedQuery)) b64_0_45)))
  end.

(** [`${normalizedQuery}-${effectiveThreshold}-${limit}`] *)
Definition cacheKeyOf (normalizedQuery : jsstr) (effectiveThreshold : Score)
    (limit : Z) : jsstr :=
  normalizedQuery ++ js "-" ++ scoreToString effectiveThreshold
                  ++ js "-" ++ numberToString limit.

(** The chain [.filter(...).sort(...).map(...).slice(0, limit)]. *)
Definition rankResults (effectiveThreshold : Score) (limit : Z)
    (scored : list Scored) : list Item :=
  slice0 (item <$>
            sortBy compareScore
              (filter (fun result => Is_true (scoreLeb (score result) effectiveThreshold))
                      scored))
         limit.

(** The state that [fuzzySearch] reads and writes: the module-wide
    [cache], and a counter of the calls of the scoring callback (the
    counter is not in the program; it observes the scoring work). *)
Record State := mkState {
  cache : gmap jsstr (list Item);
  scoringCalls : nat
}.

(** [fuzzySearch(items, query, keys, threshold, limit = 5)]: the sequence
    returned and the state left behind. *)
Definition fuzzySearch (st : State) (items : list Item) (query : jsstr)
    (keys : list string) (threshold : option Score) (limit : option Z)
    : list Item * State :=
  let limit := default 5 limit in
  let normalizedQuery := normalize query in
  if (length normalizedQuery <? 3)%nat then ([], st)
  else
    let effectiveThreshold := effectiveThresholdOf threshold normalizedQuery in
    let cacheKey := cacheKeyOf normalizedQuery effectiveThreshold limit in
    match cache st !! cacheKey with
    | Some cached => (cached, st)
    | None =>
        let queryWords := splitWhiteSpace normalizedQuery in
        let results :=
          rankResults effectiveThreshold limit
            (scoreItem normalizedQuery queryWords keys <$> items) in
        (results,
         mkState (<[cacheKey := results]> (cache st))
                 (scoringCalls st + length items))
    end.

(** The state of a freshly loaded module. *)
Definition initialState : State := mkState ∅ 0.

(** ** Records used in the examples *)

Definition blueWhale : Item := {[ "title"%string := JSString (js "Blue Whale") ]}.
Definition blueWale : Item := {[ "title"%string := JSString (js "Blue Wale") ]}.
Definition redPanda : Item := {[ "title"%string := JSString (js "Red Panda") ]}.
Definition bigBlueWhales : Item := {[ "title"%string := JSString (js "Big Blue Whales") ]}.


(** The title starts with "blue whale"; the description is unrelated. *)
Definition whaleSongAlbum : Item :=
  <[ "title"%string := JSString (js "Blue Whale Song") ]>
    {[ "description"%string := JSString (js "An album") ]}.

(** A record whose [note] normalizes to the empty string. *)
Definition whaleWithNote : Item :=
  <[ "title"%string := JSString (js "Blue Whale") ]>
    {[ "note"%string := JSString (js "!!!") ]}.

(** A record without any property. *)
Definition emptyRecord : Item := ∅.

(** A record with a property that holds a boolean. *)
Definition featuredWhale : Item :=
  <[ "title"%string := JSString (js "Blue Whale") ]>
    {[ "featured"%string := JSBool true ]}.

(** A string of 65536 letters [a]. *)
Definition longString : jsstr := replicate (Z.to_nat 65536) "a"%char.

(** A record whose title is that string. *)
Definition longTitle : Item := {[ "title"%string := JSString longString ]}.

(** ** Edit scripts

    The reading of "the minimum number of single-character insertions,
    deletions, or substitutions required to transform a into b". *)

(** One edit operation somewhere in the string. *)
Inductive edit1 : jsstr -> jsstr -> Prop :=
  | edit_insert (p s : jsstr) (c : ascii) : edit1 (p ++ s) (p ++ c :: s)
  | edit_delete (p s : jsstr) (c : ascii) : edit1 (p ++ c :: s) (p ++ s)
  | edit_substitute (p s : jsstr) (c d : ascii) :
      c <> d -> edit1 (p ++ c :: s) (p ++ d :: s).

(** [edits k a b]: [k] edit operations, one after the other, turn [a]
    into [b]. *)
Inductive edits : nat -> jsstr -> jsstr -> Prop :=
  | edits_done (a : jsstr) : edits 0 a a
  | edits_step (k : nat) (a b c : jsstr) :
      edit1 a b -> edits k b c -> edits (S k) a c.

(** [d] is the least number of edit operations that turn [a] into [b]. *)
Definition minimalEdits (a b : jsstr) (d : Z) : Prop :=
  0 <= d /\ edits (Z.to_nat d) a b /\ forall k, edits k a b -> d <= Z.of_nat k.

(** The recurrence of the edit distance, read from the front of the two
    strings: the reference against which the table is checked. *)
Fixpoint distance (a b : jsstr) : nat :=
  match a with
  | [] => length b
  | x :: a' =>
      (fix inner (b : jsstr) : nat :=
         match b with
         | [] => length a
         | y :: b' =>
             if decide (x = y) then distance a' b'
             else S (Nat.min (Nat.min (distance a' b') (inner b')) (distance a' b))
         end) b
  end.

(** The table has [m + 1] rows of [n + 1] cells. *)
Definition tableShape (m n : nat) (dp : list (list Z)) : Prop :=
  length dp = S m /\ Forall (fun row => length row = S n) dp.

(** A decimal digit. *)
Definition isDigit (c : ascii) : bool := inRange 48 57 c.

(** The integers that [String] writes with all their digits, and the
    thresholds whose conversion [scoreToString] gives as the program
    does. *)
Definition safeInteger (n : Z) : Prop := Z.abs n <= 2 ^ 53.

Definition safeThreshold (t : Score) : Prop :=
  match t with
  | Fin n => safeInteger n
  | Infinity => True
  end.

(** Every cell holds a 16-bit value. *)
Definition tableInRange (dp : list (list Z)) : Prop :=
  Forall (Forall (fun v => 0 <= v < 65536)) dp.

(** The cells that hold their final value [W] when the inner loop is
    about to write the cell [(i, j)]: row 0, column 0, the rows before
    row [i], and the cells of row [i] before column [j]. *)
Definition filledUpTo (W : nat -> nat -> Z) (m n i j : nat)
    (dp : list (list Z)) : Prop :=
  tableShape m n dp /\
  forall i' j', (i' <= m)%nat -> (j' <= n)%nat ->
    (i' = 0 \/ j' = 0 \/ i' < i \/ (i' = i /\ j' < j))%nat ->
    getCell dp i' j' = W i' j'.

(** A string that does not start with white space. *)
Definition startsClean (l : jsstr) : Prop :=
  match l with
  | [] => True
  | c :: _ => isWhiteSpace c = false
  end.

(** ** Notions used to state the properties of the search *)

(** The score that the scoring callback gives to a record. *)
Definition scoreOf (normalizedQuery : jsstr) (queryWords : list jsstr)
    (keys : list string) (it : Item) : Score :=
  score (scoreItem normalizedQuery queryWords keys it).

(** The order of scores: numbers by size, [Infinity] last. *)
Definition scoreLe (s t : Score) : Prop :=
  match s, t with
  | Fin a, Fin b => a <= b
  | _, Infinity => True
  | Infinity, Fin _ => False
  end.

(** A phrase of [1..maxLength] consecutive words, joined by single
    spaces. *)
Definition isPhrase (words : list jsstr) (maxLength : nat) (phrase : jsstr) : Prop :=
  exists i len : nat,
    (1 <= len <= maxLength)%nat /\ (i + len <= length words)%nat /\
    phrase = join (js " ") (take len (drop i words)).

(** The candidate values that one non-empty normalized field gives: 2 if
    it contains the query, the distance of each phrase to the query, and
    the distance of the whole field to the query. *)
Definition fieldSignal (normalizedQuery : jsstr) (queryWordCount : nat)
    (fieldValue : jsstr) (v : Z) : Prop :=
  (includes fieldValue normalizedQuery = true /\ v = 2) \/
  (exists phrase,
     isPhrase (splitWhiteSpace fieldValue) (queryWordCount + 1) phrase /\
     v = levenshtein phrase normalizedQuery) \/
  v = levenshtein fieldValue normalizedQuery.

(** The candidate values of a record: those of its listed fields whose
    normalized value is not empty. *)
Definition recordSignal (normalizedQuery : jsstr) (queryWordCount : nat)
    (it : Item) (keys : list string) (v : Z) : Prop :=
  exists key, key ∈ keys /\ fieldValueOf it key <> [] /\
    fieldSignal normalizedQuery queryWordCount (fieldValueOf it key) v.

(** The same candidate values, with the least number of edit operations
    in the place of what [levenshtein] returns. *)
Definition fieldEditSignal (normalizedQuery : jsstr) (queryWordCount : nat)
    (fieldValue : jsstr) (v : Z) : Prop :=
  (includes fieldValue normalizedQuery = true /\ v = 2) \/
  (exists phrase,
     isPhrase (splitWhiteSpace fieldValue) (queryWordCount + 1) phrase /\
     minimalEdits phrase normalizedQuery v) \/
  minimalEdits fieldValue normalizedQuery v.

Definition recordEditSignal (normalizedQuery : jsstr) (queryWordCount : nat)
    (it : Item) (keys : list string) (v : Z) : Prop :=
  exists key, key ∈ keys /\ fieldValueOf it key <> [] /\
    fieldEditSignal normalizedQuery queryWordCount (fieldValueOf it key) v.

(** [s] is the minimum of the values that satisfy [P]; the minimum of no
    value at all is [Infinity]. *)
Definition isMinimum (P : Z -> Prop) (s : Score) : Prop :=
  match s with
  | Fin v => P v /\ forall x, P x -> v <= x
  | Infinity => forall x, ~ P x
  end.

(** ** Properties of the table operations *)

Lemma foldl_seq_ind {St} (P : nat -> St -> Prop) (body : St -> nat -> St)
    (c lo : nat) (s : St) :
  P lo s ->
  (forall k s', (lo <= k < lo + c)%nat -> P k s' -> P (S k) (body s' k)) ->
  P (lo + c)%nat (foldl body s (seq lo c)).
Proof.
  revert lo s. induction c as [|c IH]; intros lo s H0 Hstep; simpl.
  - by rewrite Nat.add_0_r.
  - replace (lo + S c)%nat with (S lo + c)%nat by lia.
    apply IH.
    + apply Hstep; [lia|done].
    + intros k s' Hk. apply Hstep. lia.
Qed.

Lemma forUpTo_ind {St} (P : nat -> St -> Prop) (lo hi : nat)
    (body : St -> nat -> St) (s : St) :
  (lo <= S hi)%nat ->
  P lo s ->
  (forall k s', (lo <= k <= hi)%nat -> P k s' -> P (S k) (body s' k)) ->
  P (S hi) (forUpTo lo hi body s).
Proof.
  intros Hle H0 Hstep. unfold forUpTo.
  replace (S hi) with (lo + (S hi - lo))%nat at 1 by lia.
  apply foldl_seq_ind; [done|].
  intros k s' Hk. apply Hstep. lia.
Qed.

Lemma setCell_shape m n dp i j v :
  tableShape m n dp -> tableShape m n (setCell dp i j v).
Proof.
  intros [Hlen Hrows]. split.
  - unfold setCell. by rewrite length_alter.
  - unfold setCell. apply Forall_lookup. intros k row Hk.
    rewrite list_lookup_alter in Hk. case_decide; subst.
    + destruct (dp !! k) as [row'|] eqn:E; simplify_eq/=.
      rewrite length_insert. by eapply (Forall_lookup_1 _ _ _ _ Hrows).
    + by eapply (Forall_lookup_1 _ _ _ _ Hrows).
Qed.

Lemma getCell_setCell_eq m n dp i j v :
  tableShape m n dp -> (i <= m)%nat -> (j <= n)%nat ->
  getCell (setCell dp i j v) i j = ToUint16 v.
Proof.
  intros [Hlen Hrows] Hi Hj. unfold getCell, setCell.
  rewrite list_lookup_alter_eq.
  destruct (lookup_lt_is_Some_2 dp i) as [row Hrow]; [lia|].
  rewrite Hrow. simpl.
  rewrite list_lookup_insert_eq; [done|].
  rewrite (Forall_lookup_1 _ _ _ _ Hrows Hrow). lia.
Qed.

Lemma getCell_setCell_ne dp i j v i' j' :
  (i, j) <> (i', j') ->
  getCell (setCell dp i j v) i' j' = getCell dp i' j'.
Proof.
  intros Hne. unfold getCell, setCell.
  rewrite list_lookup_alter. case_decide; [subst|done].
  destruct (dp !! i') as [row|]; [simpl|done].
  rewrite list_lookup_insert_ne; [done|]. congruence.
Qed.

Lemma newTable_shape m n : tableShape m n (newTable m n).
Proof.
  split; unfold newTable.
  - by rewrite length_replicate.
  - apply Forall_replicate. by rewrite length_replicate.
Qed.

(** *** The loops fill the table with the solution of the recurrence

    Whatever function [W] solves the recurrence of the program (with the
    16-bit store), the table holds [W] when the loops are over. *)
Section TableSpec.
Variables (a b : jsstr) (W : nat -> nat -> Z).

Hypothesis W_col : forall i, (i <= length a)%nat -> W i 0 = ToUint16 (Z.of_nat i).
Hypothesis W_row : forall j, (j <= length b)%nat -> W 0 j = ToUint16 (Z.of_nat j).
Hypothesis W_rec : forall i j,
  (1 <= i <= length a)%nat -> (1 <= j <= length b)%nat ->
  W i j =
  ToUint16 (if decide (a !! (i - 1)%nat = b !! (j - 1)%nat)
            then W (i - 1) (j - 1)
            else Z.min (Z.min (W (i - 1) (j - 1) + 1) (W i (j - 1) + 1))
                       (W (i - 1) j + 1)).

Lemma init_column_spec dp :
  tableShape (length a) (length b) dp ->
  let dp' := forUpTo 0 (length a) (fun dp i => setCell dp i 0 (Z.of_nat i)) dp in
  tableShape (length a) (length b) dp' /\
  forall i, (i <= length a)%nat -> getCell dp' i 0 = W i 0.
Proof.
  intros Hshape.
  pose (P := fun (k : nat) (d : list (list Z)) =>
    tableShape (length a) (length b) d /\
    forall i, (i < k)%nat -> getCell d i 0 = W i 0).
  assert (HP : P (S (length a))
    (forUpTo 0 (length a) (fun dp i => setCell dp i 0 (Z.of_nat i)) dp)).
  { apply forUpTo_ind; [lia| |].
    - split; [done|]. intros i Hi. lia.
    - intros k d Hk [Hs Hd]. split; [by apply setCell_shape|].
      intros i Hi. destruct (decide (i = k)) as [->|Hne].
      + rewrite (getCell_setCell_eq (length a) (length b)) by (done || lia).
        symmetry. apply W_col. lia.
      + rewrite getCell_setCell_ne by congruence. apply Hd. lia. }
  destruct HP as [Hs Hd]. split; [done|]. intros i Hi. apply Hd. lia.
Qed.

Lemma init_row_spec dp :
  tableShape (length a) (length b) dp ->
  (forall i, (i <= length a)%nat -> getCell dp i 0 = W i 0) ->
  filledUpTo W (length a) (length b) 1 1
    (forUpTo 0 (length b) (fun dp j => setCell dp 0 j (Z.of_nat j)) dp).
Proof.
  intros Hshape Hcol.
  pose (P := fun (k : nat) (d : list (list Z)) =>
    tableShape (length a) (length b) d /\
    (forall i, (i <= length a)%nat -> getCell d i 0 = W i 0) /\
    forall j, (j < k)%nat -> getCell d 0 j = W 0 j).
  assert (HP : P (S (length b))
    (forUpTo 0 (length b) (fun dp j => setCell dp 0 j (Z.of_nat j)) dp)).
  { apply forUpTo_ind; [lia| |].
    - split; [done|]. split; [done|]. intros j Hj. lia.
    - intros k d Hk (Hs & Hc & Hr). split; [by apply setCell_shape|]. split.
      + intros i Hi. destruct (decide ((0, k) = (i, 0))%nat) as [Heq|Hne].
        * inversion Heq; subst.
          rewrite (getCell_setCell_eq (length a) (length b)) by (done || lia).
          symmetry. apply W_col. lia.
        * rewrite getCell_setCell_ne by done. by apply Hc.
      + intros j Hj. destruct (decide (j = k)) as [->|Hne].
        * rewrite (getCell_setCell_eq (length a) (length b)) by (done || lia).
          symmetry. apply W_row. lia.
        * rewrite getCell_setCell_ne by congruence. apply Hr. lia. }
  destruct HP as (Hs & Hc & Hr). split; [done|].
  intros i' j' Hi' Hj' [->|[->|[Hlt|[-> Hlt]]]].
  - apply Hr. lia.
  - by apply Hc.
  - replace i' with 0%nat by lia. apply Hr. lia.
  - replace j' with 0%nat by lia. by apply Hc.
Qed.

Lemma cellValue_spec dp i j :
  (1 <= i <= length a)%nat -> (1 <= j <= length b)%nat ->
  filledUpTo W (length a) (length b) i j dp ->
  ToUint16 (cellValue a b dp i j) = W i j.
Proof.
  intros Hi Hj [Hs Hd]. rewrite (W_rec i j Hi Hj). unfold cellValue.
  rewrite !Hd by lia. done.
Qed.

Lemma inner_step dp i j :
  (1 <= i <= length a)%nat -> (1 <= j <= length b)%nat ->
  filledUpTo W (length a) (length b) i j dp ->
  filledUpTo W (length a) (length b) i (S j)
    (setCell dp i j (cellValue a b dp i j)).
Proof.
  intros Hi Hj Hf. pose proof (cellValue_spec dp i j Hi Hj Hf) as Hv.
  destruct Hf as [Hs Hd]. split; [by apply setCell_shape|].
  intros i' j' Hi' Hj' Hin.
  destruct (decide ((i, j) = (i', j'))) as [Heq|Hne].
  - inversion Heq; subst.
    rewrite (getCell_setCell_eq (length a) (length b)) by (done || lia). done.
  - rewrite getCell_setCell_ne by done. apply Hd; [done|done|].
    destruct Hin as [?|[?|[?|[-> ?]]]]; [by left|by right; left|by right; right; left|].
    right; right; right. split; [done|].
    assert (j' <> j) by congruence. lia.
Qed.

Lemma inner_loop_spec dp i :
  (1 <= i <= length a)%nat ->
  filledUpTo W (length a) (length b) i 1 dp ->
  filledUpTo W (length a) (length b) (S i) 1
    (forUpTo 1 (length b)
       (fun dp j => setCell dp i j (cellValue a b dp i j)) dp).
Proof.
  intros Hi Hf.
  assert (HP : filledUpTo W (length a) (length b) i (S (length b))
    (forUpTo 1 (length b)
       (fun dp j => setCell dp i j (cellValue a b dp i j)) dp)).
  { apply (forUpTo_ind (fun k d => filledUpTo W (length a) (length b) i k d));
      [lia|done|].
    intros k d Hk Hd. apply inner_step; [done|lia|done]. }
  destruct HP as [Hs Hd]. split; [done|].
  intros i' j' Hi' Hj' Hin. apply Hd; [done|done|]. lia.
Qed.

Theorem levenshteinTable_spec i j :
  (i <= length a)%nat -> (j <= length b)%nat ->
  getCell (levenshteinTable a b) i j = W i j.
Proof.
  intros Hi Hj. unfold levenshteinTable.
  destruct (init_column_spec (newTable (length a) (length b))
              (newTable_shape _ _)) as [Hs Hc].
  pose proof (init_row_spec _ Hs Hc) as Hf.
  match goal with
  | |- getCell (forUpTo 1 _ ?body ?d) _ _ = _ =>
      assert (HP : filledUpTo W (length a) (length b) (S (length a)) 1
                     (forUpTo 1 (length a) body d))
  end.
  { apply (forUpTo_ind (fun k d => filledUpTo W (length a) (length b) k 1 d));
      [lia|done|].
    intros k d Hk Hd. by apply inner_loop_spec. }
  destruct HP as [_ Hd]. apply Hd; [done|done|]. lia.
Qed.
End TableSpec.

(** *** The reference recurrence is the least number of edit operations *)

Lemma distance_nil_r a : distance a [] = length a.
Proof. by destruct a. Qed.

Lemma distance_cons x a y b :
  distance (x :: a) (y :: b) =
  if decide (x = y) then distance a b
  else S (Nat.min (Nat.min (distance a b) (distance (x :: a) b))
                  (distance a (y :: b))).
Proof. reflexivity. Qed.

Lemma distance_le_max a b : (distance a b <= Nat.max (length a) (length b))%nat.
Proof.
  revert b. induction a as [|x a IHa]; intros b; [simpl; lia|].
  induction b as [|y b IHb]; [simpl; lia|].
  rewrite distance_cons. specialize (IHa b). simpl in *.
  case_decide; lia.
Qed.

Lemma distance_refl a : distance a a = 0%nat.
Proof.
  induction a as [|x a IH]; [done|].
  rewrite distance_cons. by rewrite decide_True.
Qed.

(** Adding or dropping one character at the front moves the distance by
    at most one. *)
Lemma distance_front k : forall a b x,
  (length a + length b <= k)%nat ->
  (distance (x :: a) b <= S (distance a b))%nat /\
  (distance a (x :: b) <= S (distance a b))%nat /\
  (distance a b <= S (distance (x :: a) b))%nat /\
  (distance a b <= S (distance a (x :: b)))%nat.
Proof.
  induction k as [|k IH]; intros a b x Hk.
  - destruct a, b; simpl in Hk; try lia. simpl. lia.
  - assert (H1 : (distance (x :: a) b <= S (distance a b))%nat).
    { destruct b as [|y b]; [rewrite !distance_nil_r; simpl; lia|].
      rewrite distance_cons. case_decide as Hxy; [|lia].
      simpl in Hk. destruct (IH a b y ltac:(lia)) as (_ & _ & _ & Hb). lia. }
    assert (H2 : (distance a (x :: b) <= S (distance a b))%nat).
    { destruct a as [|z a]; [simpl; lia|].
      rewrite distance_cons. case_decide as Hzx; [|lia].
      simpl in Hk. destruct (IH a b z ltac:(lia)) as (_ & _ & Ha & _). lia. }
    repeat split; [done|done| |].
    + destruct b as [|y b]; [rewrite !distance_nil_r; simpl; lia|].
      rewrite (distance_cons x a y b). simpl in Hk.
      destruct (IH a b y ltac:(lia)) as (_ & Hy2 & _ & _).
      destruct (IH a b x ltac:(lia)) as (_ & _ & Hx3 & _).
      case_decide as Hxy; lia.
    + destruct a as [|z a]; [simpl; lia|].
      rewrite (distance_cons z a x b). simpl in Hk.
      destruct (IH a b z ltac:(lia)) as (Hz1 & _ & _ & _).
      destruct (IH a b x ltac:(lia)) as (_ & _ & _ & Hx4).
      case_decide as Hzx; lia.
Qed.

Lemma distance_drop_l x a b : (distance (x :: a) b <= S (distance a b))%nat.
Proof. by eapply (distance_front _ a b x). Qed.

Lemma distance_drop_r x a b : (distance a (x :: b) <= S (distance a b))%nat.
Proof. by eapply (distance_front _ a b x). Qed.

Lemma distance_add_l x a b : (distance a b <= S (distance (x :: a) b))%nat.
Proof. by eapply (distance_front _ a b x). Qed.

Lemma distance_add_r x a b : (distance a b <= S (distance a (x :: b)))%nat.
Proof. by eapply (distance_front _ a b x). Qed.

(** Replacing the first character moves the distance by at most one. *)
Lemma distance_subst_head c d s b :
  (distance (c :: s) b <= S (distance (d :: s) b))%nat.
Proof.
  induction b as [|y b IHb]; [simpl; lia|].
  pose proof (distance_add_l d s b).
  pose proof (distance_add_r y s b).
  rewrite (distance_cons c), (distance_cons d).
  repeat case_decide; lia.
Qed.

(** The same under a common front. *)
Lemma distance_common_front z u u' :
  (forall b, (distance u b <= S (distance u' b))%nat) ->
  forall b, (distance (z :: u) b <= S (distance (z :: u') b))%nat.
Proof.
  intros Hu b. induction b as [|y b IHb].
  - specialize (Hu []). rewrite !distance_nil_r in *. simpl. lia.
  - rewrite !distance_cons.
    pose proof (Hu b). pose proof (Hu (y :: b)).
    case_decide; lia.
Qed.

Lemma distance_edit1 a a' :
  edit1 a a' -> forall b, (distance a b <= S (distance a' b))%nat.
Proof.
  intros He. destruct He as [p s c|p s c|p s c d Hcd].
  - induction p as [|z p IHp]; simpl.
    + intros b. apply distance_add_l.
    + by apply distance_common_front.
  - induction p as [|z p IHp]; simpl.
    + intros b. apply distance_drop_l.
    + by apply distance_common_front.
  - induction p as [|z p IHp]; simpl.
    + intros b. apply distance_subst_head.
    + by apply distance_common_front.
Qed.

Lemma distance_lower k a b : edits k a b -> (distance a b <= k)%nat.
Proof.
  induction 1 as [a|k a a' b He Hes IH].
  - rewrite distance_refl. lia.
  - pose proof (distance_edit1 a a' He b). lia.
Qed.

Lemma edit1_cons x a b : edit1 a b -> edit1 (x :: a) (x :: b).
Proof.
  intros [p s c|p s c|p s c d Hcd].
  - apply (edit_insert (x :: p)).
  - apply (edit_delete (x :: p)).
  - by apply (edit_substitute (x :: p)).
Qed.

Lemma edits_cons x k a b : edits k a b -> edits k (x :: a) (x :: b).
Proof.
  induction 1 as [a|k a a' b He Hes IH]; [constructor|].
  eapply edits_step; [by apply edit1_cons|done].
Qed.

Lemma edits_more k a b : edits k a b -> forall c, edit1 b c -> edits (S k) a c.
Proof.
  induction 1 as [a|k a a' b He Hes IH]; intros c Hc.
  - eapply edits_step; [done|constructor].
  - eapply edits_step; [done|]. by apply IH.
Qed.

Lemma edits_insert_all b : edits (length b) [] b.
Proof.
  induction b as [|y b IH] using rev_ind; [constructor|].
  rewrite length_app. simpl. rewrite Nat.add_1_r.
  eapply edits_more; [done|].
  rewrite <- (app_nil_r b) at 1. apply edit_insert.
Qed.

Lemma edits_delete_all a : edits (length a) a [].
Proof.
  induction a as [|x a IH]; [constructor|]. simpl.
  eapply edits_step; [|done]. apply (edit_delete [] a x).
Qed.

Lemma distance_upper a b : edits (distance a b) a b.
Proof.
  revert b. induction a as [|x a IHa]; intros b.
  - simpl. apply edits_insert_all.
  - induction b as [|y b IHb].
    + rewrite distance_nil_r. apply edits_delete_all.
    + rewrite distance_cons. case_decide as Hxy.
      * subst. apply edits_cons, IHa.
      * destruct (Nat.min_spec (distance a b) (distance (x :: a) b)) as [[_ E1]|[_ E1]];
        destruct (Nat.min_spec (Nat.min (distance a b) (distance (x :: a) b))
                    (distance a (y :: b))) as [[_ E2]|[_ E2]];
        rewrite E2, ?E1.
        -- eapply edits_step; [by apply (edit_substitute [] a x y)|].
           apply edits_cons, IHa.
        -- eapply edits_step; [apply (edit_delete [] a x)|]. apply IHa.
        -- eapply edits_more; [apply IHb|]. apply (edit_insert [] b y).
        -- eapply edits_step; [apply (edit_delete [] a x)|]. apply IHa.
Qed.

Lemma edit1_rev a b : edit1 a b -> edit1 (rev a) (rev b).
Proof.
  intros [p s c|p s c|p s c d Hcd];
    rewrite ?rev_app_distr; simpl; rewrite <- ?app_assoc; simpl.
  - apply edit_insert.
  - apply edit_delete.
  - by apply edit_substitute.
Qed.

Lemma edits_rev k a b : edits k a b -> edits k (rev a) (rev b).
Proof.
  induction 1 as [a|k a a' b He Hes IH]; [constructor|].
  eapply edits_step; [by apply edit1_rev|done].
Qed.

Lemma edits_length k a b :
  edits k a b -> (length b <= length a + k)%nat /\ (length a <= length b + k)%nat.
Proof.
  induction 1 as [a|k a a' b He Hes IH]; [lia|].
  assert ((length a' <= length a + 1)%nat /\ (length a <= length a' + 1)%nat).
  { destruct He; rewrite !length_app; simpl; lia. }
  lia.
Qed.

(** *** Without overflow the table holds the reference recurrence *)

Lemma ToUint16_small v : 0 <= v < 65536 -> ToUint16 v = v.
Proof. intros Hv. unfold ToUint16. by apply Z.mod_small. Qed.

Lemma rev_take_S (l : jsstr) i x :
  l !! i = Some x -> rev (take (S i) l) = x :: rev (take i l).
Proof.
  intros Hx. rewrite (take_S_r _ _ _ Hx). by rewrite rev_app_distr.
Qed.

Lemma distance_take_le (a b : jsstr) i j :
  (i <= length a)%nat -> (j <= length b)%nat ->
  (distance (rev (take i a)) (rev (take j b)) <= Nat.max (length a) (length b))%nat.
Proof.
  intros Hi Hj. etrans; [apply distance_le_max|].
  rewrite !length_rev, !length_take. lia.
Qed.

Lemma levenshteinTable_distance (a b : jsstr) :
  Z.of_nat (length a) <= 65535 -> Z.of_nat (length b) <= 65535 ->
  forall i j, (i <= length a)%nat -> (j <= length b)%nat ->
  getCell (levenshteinTable a b) i j =
  Z.of_nat (distance (rev (take i a)) (rev (take j b))).
Proof.
  intros Ha Hb.
  apply (levenshteinTable_spec a b
           (fun i j => Z.of_nat (distance (rev (take i a)) (rev (take j b))))).
  - intros i Hi. simpl. rewrite distance_nil_r, length_rev, length_take.
    rewrite ToUint16_small by lia. lia.
  - intros j Hj. simpl. rewrite length_rev, length_take.
    rewrite ToUint16_small by lia. lia.
  - intros i j Hi Hj.
    destruct i as [|i]; [lia|]. destruct j as [|j]; [lia|].
    replace (S i - 1)%nat with i by lia. replace (S j - 1)%nat with j by lia.
    destruct (lookup_lt_is_Some_2 a i) as [x Hx]; [lia|].
    destruct (lookup_lt_is_Some_2 b j) as [y Hy]; [lia|].
    pose proof (distance_take_le a b (S i) (S j) ltac:(lia) ltac:(lia)) as Hle.
    pose proof (distance_take_le a b i j ltac:(lia) ltac:(lia)) as Hle'.
    rewrite (rev_take_S a i x Hx), (rev_take_S b j y Hy) in *.
    rewrite distance_cons in *. rewrite Hx, Hy.
    destruct (decide (x = y)) as [->|Hne].
    + rewrite decide_True by done. rewrite ToUint16_small by lia. done.
    + rewrite decide_False by congruence. rewrite ToUint16_small by lia. lia.
Qed.

Lemma levenshtein_distance (a b : jsstr) :
  Z.of_nat (length a) <= 65535 -> Z.of_nat (length b) <= 65535 ->
  levenshtein a b = Z.of_nat (distance (rev a) (rev b)).
Proof.
  intros Ha Hb. unfold levenshtein.
  destruct (Nat.eqb_spec (length a) 0) as [Ea|Ea].
  { apply nil_length_inv in Ea as ->. simpl. by rewrite length_rev. }
  destruct (Nat.eqb_spec (length b) 0) as [Eb|Eb].
  { apply nil_length_inv in Eb as ->. simpl.
    by rewrite distance_nil_r, length_rev. }
  rewrite levenshteinTable_distance by lia.
  by rewrite !take_ge by lia.
Qed.

Lemma distance_minimal (a b : jsstr) :
  minimalEdits a b (Z.of_nat (distance (rev a) (rev b))).
Proof.
  split; [lia|]. split.
  - rewrite Nat2Z.id.
    rewrite <- (rev_involutive a) at 2. rewrite <- (rev_involutive b) at 2.
    apply edits_rev, distance_upper.
  - intros k Hk. apply edits_rev, distance_lower in Hk. lia.
Qed.

(** *** Beyond 65535 characters the 16-bit cells wrap *)

(** The table for a string of 65536 letters [a] against the string [b]:
    column 0 counts modulo 2^16, and so the last cell of column 1 sees a
    left neighbour that has wrapped to 0. *)
Lemma long_table_cell (N : nat) :
  Z.of_nat N = 65536 ->
  getCell (levenshteinTable (replicate N "a"%char) (js "b")) N 1 = 1.
Proof.
  intros HN.
  pose (W := fun (i j : nat) =>
    if (j =? 0)%nat then ToUint16 (Z.of_nat i)
    else if (i =? 0)%nat then ToUint16 (Z.of_nat j)
    else if Z.of_nat i <=? 65535 then Z.of_nat i else 1).
  assert (HW : forall i j,
    (i <= length (replicate N "a"%char))%nat -> (j <= length (js "b"))%nat ->
    getCell (levenshteinTable (replicate N "a"%char) (js "b")) i j = W i j).
  { apply levenshteinTable_spec.
    - intros i Hi. done.
    - intros j Hj. unfold W. by destruct j.
    - intros i j. rewrite length_replicate. simpl. intros Hi Hj.
      assert (j = 1%nat) as -> by lia.
      rewrite lookup_replicate_2 by lia. simpl.
      unfold W, ToUint16. simpl.
      destruct (Nat.eqb_spec i 0) as [?|_]; [lia|].
      destruct (Nat.eqb_spec (i - 1) 0) as [E0|E0];
        destruct (Z.leb_spec (Z.of_nat i) 65535);
        destruct (Z.leb_spec (Z.of_nat (i - 1)) 65535);
        rewrite ?Nat2Z.inj_sub by lia; change (Z.of_nat 1) with 1;
        Z.div_mod_to_equations; lia. }
  rewrite HW by (rewrite ?length_replicate; simpl; lia).
  unfold W. simpl.
  destruct (Nat.eqb_spec N 0) as [?|_]; [lia|].
  destruct (Z.leb_spec (Z.of_nat N) 65535); [lia|done].
Qed.

(** The same string against three letters [b]: up to row 65535 a cell
    holds the larger of its two indices, and the last row starts from the
    wrapped 0 and counts the columns. *)
Lemma long_table_row (N j : nat) :
  Z.of_nat N = 65536 -> (j <= 3)%nat ->
  getCell (levenshteinTable (replicate N "a"%char) (js "bbb")) N j = Z.of_nat j.
Proof.
  intros HN Hj.
  pose (W := fun (i j : nat) =>
    if Z.of_nat i <=? 65535 then Z.max (Z.of_nat i) (Z.of_nat j)
    else Z.of_nat j).
  assert (HW : forall i j,
    (i <= length (replicate N "a"%char))%nat -> (j <= length (js "bbb"))%nat ->
    getCell (levenshteinTable (replicate N "a"%char) (js "bbb")) i j = W i j).
  { apply levenshteinTable_spec.
    - intros i. rewrite length_replicate. intros Hi. unfold W, ToUint16.
      destruct (Z.leb_spec (Z.of_nat i) 65535);
        change (Z.of_nat 0) with 0; Z.div_mod_to_equations; lia.
    - intros j'. simpl. intros Hj'. unfold W, ToUint16. simpl.
      Z.div_mod_to_equations; lia.
    - intros i j'. rewrite length_replicate. intros Hi Hj'.
      change (length (js "bbb")) with 3%nat in Hj'.
      rewrite lookup_replicate_2 by lia.
      assert (Hb : js "bbb" !! (j' - 1)%nat = Some "b"%char).
      { assert (j' = 1 \/ j' = 2 \/ j' = 3)%nat as [->|[->| ->]] by lia; done. }
      rewrite Hb, decide_False by discriminate.
      unfold W, ToUint16.
      destruct (Z.leb_spec (Z.of_nat i) 65535);
        destruct (Z.leb_spec (Z.of_nat (i - 1)) 65535);
        rewrite ?Nat2Z.inj_sub by lia; change (Z.of_nat 1) with 1;
        Z.div_mod_to_equations; lia. }
  rewrite HW by (rewrite ?length_replicate; simpl; lia).
  unfold W. destruct (Z.leb_spec (Z.of_nat N) 65535); [lia|done].
Qed.

(** ** Normalization *)

Lemma toLowerChar_kept c : isAlnumOrSpace c = true -> toLowerChar c = c.
Proof.
  destruct c as [[] [] [] [] [] [] [] []]; vm_compute; congruence.
Qed.

Lemma stripNonAlnum_kept s :
  Forall (fun c => isAlnumOrSpace c = true) (stripNonAlnum s).
Proof.
  apply Forall_forall. intros c Hc. unfold stripNonAlnum in Hc.
  apply list_elem_of_filter in Hc as [Hc _]. by apply Is_true_true.
Qed.

Lemma dropWhile_split {A} (p : A -> bool) l :
  exists front, l = front ++ dropWhile p l.
Proof.
  induction l as [|x l [front IH]]; [by exists []|]. simpl.
  destruct (p x); [|by exists []].
  exists (x :: front). simpl. by f_equal.
Qed.

Lemma dropWhile_Forall {A} (P : A -> Prop) (p : A -> bool) l :
  Forall P l -> Forall P (dropWhile p l).
Proof.
  intros Hl. destruct (dropWhile_split p l) as [front E].
  rewrite E in Hl. by apply Forall_app in Hl as [_ ?].
Qed.

Lemma dropWhile_clean l : startsClean (dropWhile isWhiteSpace l).
Proof.
  induction l as [|c l IH]; [done|]. simpl.
  destruct (isWhiteSpace c) eqn:E; [done|]. simpl. done.
Qed.

Lemma dropWhile_id l : startsClean l -> dropWhile isWhiteSpace l = l.
Proof. destruct l as [|c l]; [done|]. simpl. by intros ->. Qed.

Lemma startsClean_front l tail : startsClean (l ++ tail) -> l = [] \/ startsClean l.
Proof. destruct l; [by left|by right]. Qed.

Lemma trimEnd_clean l : startsClean l -> startsClean (trimEnd l).
Proof.
  intros Hl. unfold trimEnd.
  destruct (dropWhile_split isWhiteSpace (rev l)) as [front E].
  apply (f_equal (@rev ascii)) in E. rewrite rev_involutive, rev_app_distr in E.
  rewrite E in Hl. apply startsClean_front in Hl as [->|Hl]; done.
Qed.

Lemma trim_idempotent l : trim (trim l) = trim l.
Proof.
  unfold trim, trimStart.
  pose proof (trimEnd_clean _ (dropWhile_clean l)) as Hc.
  rewrite (dropWhile_id _ Hc).
  unfold trimEnd. rewrite rev_involutive.
  by rewrite (dropWhile_id _ (dropWhile_clean _)).
Qed.

Lemma trim_Forall (P : ascii -> Prop) l : Forall P l -> Forall P (trim l).
Proof.
  intros Hl. unfold trim, trimEnd, trimStart.
  apply Forall_rev, dropWhile_Forall, Forall_rev, dropWhile_Forall, Hl.
Qed.

Lemma normalize_kept s : Forall (fun c => isAlnumOrSpace c = true) (normalize s).
Proof. apply trim_Forall, stripNonAlnum_kept. Qed.

Lemma toLowerCase_kept s :
  Forall (fun c => isAlnumOrSpace c = true) s -> toLowerCase s = s.
Proof.
  induction 1 as [|c s Hc Hs IH]; [done|].
  unfold toLowerCase in *. simpl. by rewrite toLowerChar_kept, IH.
Qed.

Lemma stripNonAlnum_kept_id s :
  Forall (fun c => isAlnumOrSpace c = true) s -> stripNonAlnum s = s.
Proof.
  induction 1 as [|c s Hc Hs IH]; [done|].
  unfold stripNonAlnum in *. rewrite filter_cons_True; [by f_equal|].
  by apply Is_true_true.
Qed.

(** ** Sorting by score *)

Lemma compareScore_le a b : compareScore a b <= 0 <-> scoreLe (score a) (score b).
Proof.
  unfold compareScore, scoreLe. destruct (score a), (score b); lia.
Qed.

Lemma scoreLe_refl s : scoreLe s s.
Proof. destruct s; simpl; lia. Qed.

Lemma scoreLe_trans s t u : scoreLe s t -> scoreLe t u -> scoreLe s u.
Proof. destruct s, t, u; simpl; lia. Qed.

Lemma scoreLe_total s t : scoreLe s t \/ scoreLe t s.
Proof. destruct s, t; simpl; lia. Qed.

Lemma scoreLeb_le s t : Is_true (scoreLeb s t) <-> scoreLe s t.
Proof.
  destruct s, t; simpl; try tauto.
  rewrite Is_true_true, Z.leb_le. done.
Qed.

Lemma scoreLeb_down s s' t :
  scoreLe s s' -> Is_true (scoreLeb s' t) -> Is_true (scoreLeb s t).
Proof.
  rewrite !scoreLeb_le. apply scoreLe_trans.
Qed.

Lemma elem_of_insertSorted {A} (cmp : A -> A -> Z) x y l :
  y ∈ insertSorted cmp x l <-> y = x \/ y ∈ l.
Proof.
  induction l as [|z l IH]; simpl.
  - rewrite list_elem_of_singleton, elem_of_nil. tauto.
  - destruct (cmp x z <=? 0).
    + by rewrite elem_of_cons.
    + rewrite !elem_of_cons, IH. tauto.
Qed.

Lemma elem_of_sortBy {A} (cmp : A -> A -> Z) y l :
  y ∈ sortBy cmp l <-> y ∈ l.
Proof.
  induction l as [|x l IH]; [done|]. unfold sortBy in *. simpl.
  rewrite elem_of_insertSorted, elem_of_cons, IH. done.
Qed.

(** The result of the sort is ascending: each element is at most every
    later one. *)
Lemma insertSorted_sorted x l :
  StronglySorted (fun a b => scoreLe (score a) (score b)) l ->
  StronglySorted (fun a b => scoreLe (score a) (score b))
    (insertSorted compareScore x l).
Proof.
  induction 1 as [|y l Hl IH Hy]; simpl.
  - repeat constructor.
  - destruct (Z.leb_spec (compareScore x y) 0) as [Hle|Hgt].
    + apply compareScore_le in Hle. constructor.
      * by constructor.
      * constructor; [done|].
        eapply Forall_impl; [exact Hy|]. intros z Hz. simpl in Hz.
        eapply scoreLe_trans; done.
    + constructor; [done|].
      apply Forall_forall. intros z Hz.
      apply elem_of_insertSorted in Hz as [->|Hz].
      * destruct (scoreLe_total (score y) (score x)) as [?|Hc]; [done|].
        apply compareScore_le in Hc. lia.
      * rewrite Forall_forall in Hy. by apply Hy.
Qed.

Lemma sortBy_sorted l :
  StronglySorted (fun a b => scoreLe (score a) (score b)) (sortBy compareScore l).
Proof.
  induction l as [|x l IH]; [constructor|].
  unfold sortBy in *. simpl. by apply insertSorted_sorted.
Qed.

(** The sort is stable: the elements of any one score keep their order. *)
Lemma insertSorted_same_score s x l :
  filter (fun r => score r = s) (insertSorted compareScore x l) =
  filter (fun r => score r = s) (x :: l).
Proof.
  induction l as [|y l IH]; [done|]. simpl.
  destruct (Z.leb_spec (compareScore x y) 0) as [Hle|Hgt]; [done|].
  rewrite filter_cons, IH, !filter_cons.
  destruct (decide (score y = s)) as [Hy|Hy];
    destruct (decide (score x = s)) as [Hx|Hx]; try done.
  exfalso. unfold compareScore in Hgt. rewrite Hx, Hy in Hgt.
  destruct s; lia.
Qed.

Lemma sortBy_same_score s l :
  filter (fun r => score r = s) (sortBy compareScore l) =
  filter (fun r => score r = s) l.
Proof.
  induction l as [|x l IH]; [done|].
  unfold sortBy in *. simpl.
  rewrite insertSorted_same_score, !filter_cons, IH. done.
Qed.

Lemma StronglySorted_lookup {A} (R : A -> A -> Prop) l i j x y :
  StronglySorted R l -> (i < j)%nat ->
  l !! i = Some x -> l !! j = Some y -> R x y.
Proof.
  intros Hl. revert i j. induction Hl as [|z l Hl IH Hz]; intros i j Hij Hi Hj.
  - done.
  - destruct j as [|j]; [lia|]. destruct i as [|i]; simpl in *.
    + simplify_eq. rewrite Forall_forall in Hz. apply Hz.
      by eapply list_elem_of_lookup_2.
    + eapply (IH i j); [lia|done|done].
Qed.

Lemma slice0_take {A} (arr : list A) limit :
  exists k, slice0 arr limit = take k arr.
Proof. by eexists. Qed.

Lemma filter_take_prefix {A} (P : A -> Prop) `{!forall x, Decision (P x)}
    (l : list A) k :
  filter P (take k l) `prefix_of` filter P l.
Proof.
  rewrite <- (take_drop k l) at 2. rewrite filter_app.
  by apply prefix_app_r.
Qed.

(** ** Phrases *)

Lemma foldl_push {A B} (f : B -> A) (l : list B) (acc : list A) :
  foldl (fun acc i => acc ++ [f i]) acc l = acc ++ map f l.
Proof.
  revert acc. induction l as [|i l IH]; intros acc; simpl.
  - by rewrite app_nil_r.
  - rewrite IH. by rewrite <- app_assoc.
Qed.

Lemma generateNGrams_loop words (l : list nat) (acc : list jsstr) :
  foldl (fun nGrams n =>
           foldl (fun nGrams i =>
                    nGrams ++ [join (js " ") (sliceFrom words i (i + n))])
                 nGrams (seq 0 (S (length words) - n))) acc l =
  acc ++ concat (map (fun n => map (fun i => join (js " ") (take n (drop i words)))
                                   (seq 0 (S (length words) - n))) l).
Proof.
  revert acc. induction l as [|n l IH]; intros acc; simpl.
  - by rewrite app_nil_r.
  - rewrite IH, foldl_push, <- app_assoc. do 2 f_equal.
    apply map_ext. intros i. unfold sliceFrom.
    by replace (i + n - i)%nat with n by lia.
Qed.

Lemma generateNGrams_eq words maxN :
  generateNGrams words maxN =
  concat (map (fun n => map (fun i => join (js " ") (take n (drop i words)))
                            (seq 0 (S (length words) - n)))
              (seq 1 maxN)).
Proof.
  unfold generateNGrams, forUpTo.
  replace (S maxN - 1)%nat with maxN by lia.
  by rewrite generateNGrams_loop.
Qed.

Lemma elem_of_generateNGrams words maxN phrase :
  phrase ∈ generateNGrams words maxN <-> isPhrase words maxN phrase.
Proof.
  rewrite generateNGrams_eq. unfold isPhrase. split.
  - intros Hin. apply list_elem_of_In, in_concat in Hin as (l & Hl & Hin).
    apply in_map_iff in Hl as (n & <- & Hn).
    apply in_map_iff in Hin as (i & <- & Hi).
    apply in_seq in Hn. apply in_seq in Hi.
    exists i, n. repeat split; lia.
  - intros (i & n & Hn & Hi & ->).
    apply list_elem_of_In, in_concat. eexists. split.
    + apply in_map_iff. exists n. split; [done|]. apply in_seq. lia.
    + apply in_map_iff. exists i. split; [done|]. apply in_seq. lia.
Qed.

(** ** The running minimum of the scoring callback *)

Lemma isMinimum_ext (P Q : Z -> Prop) s :
  (forall v, P v <-> Q v) -> isMinimum P s -> isMinimum Q s.
Proof.
  intros HPQ. destruct s as [v|]; simpl.
  - intros [Hv Hmin]. split; [by apply HPQ|]. intros x Hx. by apply Hmin, HPQ.
  - intros Hn x Hx. by apply (Hn x), HPQ.
Qed.

Lemma isMinimum_min (P : Z -> Prop) s d :
  isMinimum P s -> isMinimum (fun v => P v \/ v = d) (Math_min s (Fin d)).
Proof.
  destruct s as [v|]; simpl.
  - intros [Hv Hmin]. split.
    + destruct (Z.min_spec v d) as [[_ ->]|[_ ->]]; [by left|by right].
    + intros x [Hx| ->]; [specialize (Hmin x Hx)|]; lia.
  - intros Hn. split; [by right|]. intros x [Hx| ->]; [by destruct (Hn x)|lia].
Qed.

Lemma isMinimum_foldl (f : jsstr -> Z) (l : list jsstr) (P : Z -> Prop) s :
  isMinimum P s ->
  isMinimum (fun v => P v \/ exists x, x ∈ l /\ v = f x)
    (foldl (fun best x => Math_min best (Fin (f x))) s l).
Proof.
  revert P s. induction l as [|y l IH]; intros P s Hs; simpl.
  - eapply isMinimum_ext; [|exact Hs].
    intros v. split; [by left|]. intros [?|(x & Hx & _)]; [done|].
    by apply elem_of_nil in Hx.
  - eapply isMinimum_ext; [|apply IH, (isMinimum_min P s (f y)), Hs].
    intros v. simpl. split.
    + intros [[?| ->]|(x & Hx & ->)].
      * by left.
      * right. exists y. split; [apply elem_of_cons; by left|done].
      * right. exists x. split; [apply elem_of_cons; by right|done].
    + intros [?|(x & Hx & ->)]; [by left; left|].
      apply elem_of_cons in Hx as [->|Hx]; [by left; right|].
      right. by exists x.
Qed.

Lemma startsWith_refl s : startsWith s s = true.
Proof.
  induction s as [|c s IH]; [done|]. simpl.
  by rewrite bool_decide_eq_true_2, IH.
Qed.

(** The loop over the keys, when no field returns early: the running
    minimum takes in the candidate values of every field. *)
Lemma scoreFields_minimum nq qw it keys : forall (P : Z -> Prop) best,
  (forall key, key ∈ keys -> fieldValueOf it key <> [] ->
     fieldValueOf it key <> nq /\ startsWith (fieldValueOf it key) nq = false) ->
  isMinimum P best ->
  isMinimum (fun v => P v \/ recordSignal nq (length qw) it keys v)
    (scoreFields nq qw it keys best).
Proof.
  induction keys as [|key keys IH]; intros P best Hno Hbest; simpl.
  - eapply isMinimum_ext; [|exact Hbest].
    intros v. split; [by left|]. intros [?|(k & Hk & _)]; [done|].
    by apply elem_of_nil in Hk.
  - assert (Hrest : forall k, k ∈ keys -> fieldValueOf it k <> [] ->
      fieldValueOf it k <> nq /\ startsWith (fieldValueOf it k) nq = false).
    { intros k Hk. apply Hno, elem_of_cons. by right. }
    case_bool_decide as Hempty.
    { eapply isMinimum_ext; [|apply (IH P best Hrest Hbest)].
      intros v. split.
      - intros [?|(k & Hk & Hne & Hs)]; [by left|].
        right. exists k. split; [apply elem_of_cons; by right|done].
      - intros [?|(k & Hk & Hne & Hs)]; [by left|].
        apply elem_of_cons in Hk as [->|Hk]; [done|].
        right. by exists k. }
    destruct (Hno key (list_elem_of_here _ _) Hempty) as [Hneq Hpre].
    rewrite bool_decide_eq_false_2 by done. rewrite Hpre.
    set (fv := fieldValueOf it key) in *.
    set (P1 := fun v => P v \/ (includes fv nq = true /\ v = 2)).
    assert (H1 : isMinimum P1
      (if includes fv nq then Math_min best (Fin 2) else best)).
    { unfold P1. destruct (includes fv nq).
      - eapply isMinimum_ext; [|apply (isMinimum_min P best 2), Hbest].
        intros v. simpl. tauto.
      - eapply isMinimum_ext; [|exact Hbest].
        intros v. split; [by left|]. by intros [?|[? _]]. }
    pose proof (isMinimum_foldl (fun phrase => levenshtein phrase nq)
      (generateNGrams (splitWhiteSpace fv) (length qw + 1)) _ _ H1) as H2.
    pose proof (isMinimum_min _ _ (levenshtein fv nq) H2) as H3.
    eapply isMinimum_ext; [|apply (IH _ _ Hrest H3)].
    intros v. simpl. unfold P1. split.
    + intros [[[[?|Hinc]|(x & Hx & ->)]| ->]|(k & Hk & Hne & Hs)].
      * by left.
      * right. exists key. split; [apply list_elem_of_here|].
        split; [done|]. by left.
      * right. exists key. split; [apply list_elem_of_here|].
        split; [done|]. right; left. exists x.
        split; [by apply elem_of_generateNGrams|done].
      * right. exists key. split; [apply list_elem_of_here|].
        split; [done|]. by right; right.
      * right. exists k. split; [apply elem_of_cons; by right|done].
    + intros [?|(k & Hk & Hne & Hs)]; [by left; left; left; left|].
      apply elem_of_cons in Hk as [->|Hk].
      * destruct Hs as [Hinc|[(x & Hx & ->)| ->]].
        -- by left; left; left; right.
        -- left; left; right. exists x.
           split; [by apply elem_of_generateNGrams|done].
        -- by left; right.
      * right. by exists k.
Qed.

(** An empty normalized field is passed over. *)
Lemma scoreFields_skip nq qw it ks1 key ks2 : forall best,
  fieldValueOf it key = [] ->
  scoreFields nq qw it (ks1 ++ key :: ks2) best =
  scoreFields nq qw it (ks1 ++ ks2) best.
Proof.
  induction ks1 as [|k ks1 IH]; intros best Hempty; simpl.
  - by rewrite bool_decide_eq_true_2.
  - repeat case_match; try done; by apply IH.
Qed.

Lemma scoreFields_all_empty nq qw it keys best :
  (forall key, key ∈ keys -> fieldValueOf it key = []) ->
  scoreFields nq qw it keys best = best.
Proof.
  induction keys as [|k keys IH]; intros Hall; [done|]. simpl.
  rewrite bool_decide_eq_true_2 by (apply Hall, list_elem_of_here).
  apply IH. intros key Hk. apply Hall, elem_of_cons. by right.
Qed.


Lemma scoreFields_exact_somewhere nq qw it keys : forall best,
  nq <> [] ->
  (exists key, key ∈ keys /\ fieldValueOf it key = nq) ->
  scoreFields nq qw it keys best = Fin 0 \/
  scoreFields nq qw it keys best = Fin 1.
Proof.
  induction keys as [|k keys IH]; intros best Hnq (key & Hkey & Heq).
  - by apply elem_of_nil in Hkey.
  - simpl. case_bool_decide as Hempty.
    { apply IH; [done|]. exists key. split; [|done].
      apply elem_of_cons in Hkey as [->|?]; [congruence|done]. }
    case_bool_decide as Hk; [by left|].
    destruct (startsWith (fieldValueOf it k) nq); [by right|].
    apply IH; [done|]. exists key. split; [|done].
    apply elem_of_cons in Hkey as [->|?]; [congruence|done].
Qed.

(** ** The ranked result *)

Section Ranking.
Variables (nq : jsstr) (qw : list jsstr) (keys : list string).
Variables (thr : Score) (limit : Z) (items : list Item).

Local Abbreviation passes := (fun r : Scored => Is_true (scoreLeb (score r) thr)).
Local Abbreviation scored := (scoreItem nq qw keys <$> items).
Local Abbreviation ranked := (sortBy compareScore (filter passes scored)).

Lemma ranked_elem r :
  r ∈ ranked <->
  exists it, it ∈ items /\ r = scoreItem nq qw keys it /\
             Is_true (scoreLeb (scoreOf nq qw keys it) thr).
Proof.
  rewrite elem_of_sortBy, list_elem_of_filter.
  rewrite list_elem_of_fmap. split.
  - intros [Hp (it & -> & Hit)]. by exists it.
  - intros (it & Hit & -> & Hp). split; [done|]. by exists it.
Qed.

Lemma ranked_score r : r ∈ ranked -> score r = scoreOf nq qw keys (item r).
Proof. intros Hr. apply ranked_elem in Hr as (it & _ & -> & _). done. Qed.

Lemma rankResults_lookup i it :
  rankResults thr limit scored !! i = Some it ->
  exists r, ranked !! i = Some r /\ it = item r.
Proof.
  unfold rankResults. destruct (slice0_take (item <$> ranked) limit) as [k Hk].
  rewrite Hk.
  intros [Hi _]%lookup_take_Some.
  apply list_lookup_fmap_Some in Hi as (r & -> & Hr). by exists r.
Qed.


(** Ascending order of the scores. *)
Lemma rankResults_ascending i j ri rj :
  (i <= j)%nat ->
  rankResults thr limit scored !! i = Some ri ->
  rankResults thr limit scored !! j = Some rj ->
  scoreLe (scoreOf nq qw keys ri) (scoreOf nq qw keys rj).
Proof.
  intros Hij (r1 & H1 & ->)%rankResults_lookup (r2 & H2 & ->)%rankResults_lookup.
  rewrite <- !ranked_score by (by eapply list_elem_of_lookup_2).
  destruct (decide (i = j)) as [->|Hne].
  - simplify_eq. apply scoreLe_refl.
  - eapply (StronglySorted_lookup (fun a b => scoreLe (score a) (score b))
              ranked i j); [|lia|done|done].
    apply sortBy_sorted.
Qed.

Lemma fmap_item_filter_score s (l : list Scored) :
  (forall r, r ∈ l -> score r = scoreOf nq qw keys (item r)) ->
  filter (fun it => scoreOf nq qw keys it = s) (item <$> l) =
  item <$> filter (fun r => score r = s) l.
Proof.
  induction l as [|r l IH]; intros Hl; [done|].
  rewrite fmap_cons, !filter_cons.
  rewrite <- (Hl r) by apply list_elem_of_here.
  rewrite IH by (intros r' Hr'; apply Hl, elem_of_cons; by right).
  by destruct (decide (score r = s)).
Qed.

(** Records of one score keep the order of the collection. *)
Lemma rankResults_stable s :
  filter (fun it => scoreOf nq qw keys it = s) (rankResults thr limit scored)
  `prefix_of` filter (fun it => scoreOf nq qw keys it = s) items.
Proof.
  unfold rankResults. destruct (slice0_take (item <$> ranked) limit) as [k Hk].
  rewrite Hk.
  etrans; [apply filter_take_prefix|].
  rewrite fmap_item_filter_score by apply ranked_score.
  rewrite sortBy_same_score.
  destruct (scoreLeb s thr) eqn:Hs.
  - rewrite list_filter_filter_l.
    2:{ intros r <-. by rewrite Hs. }
    rewrite <- fmap_item_filter_score
      by (by intros r (it & -> & _)%list_elem_of_fmap).
    rewrite <- list_fmap_compose.
    by rewrite list_fmap_id.
  - rewrite list_filter_filter.
    rewrite (list_filter_iff _ (fun _ => False)).
    2:{ intros r. split; [|done]. intros [<- Hp]. by rewrite Hs in Hp. }
    replace (filter (fun _ : Scored => False) scored) with (@nil Scored).
    + apply prefix_nil.
    + generalize scored. intros l. induction l as [|r l IH]; [done|].
      rewrite filter_cons_False; [done|tauto].
Qed.


(** A record of score [Infinity] is not returned, unless the threshold
    is [Infinity]. *)
Lemma rankResults_not_infinity it :
  thr <> Infinity ->
  scoreOf nq qw keys it = Infinity -> it ∉ rankResults thr limit scored.
Proof.
  intros Hthr Hinf Hin. apply list_elem_of_lookup_1 in Hin as [i Hi].
  apply rankResults_lookup in Hi as (r & Hr & ->).
  apply list_elem_of_lookup_2 in Hr.
  pose proof (ranked_score _ Hr) as Hs. rewrite Hinf in Hs.
  apply ranked_elem in Hr as (it' & _ & -> & Hp).
  simpl in Hs. unfold scoreOf in Hp. simpl in Hp. rewrite Hs in Hp.
  by destruct thr.
Qed.
End Ranking.

(** ** The default threshold *)

(** The rounded binary64 product [n * 0.45] has the same floor as the
    exact product 45 n / 100, for every length [n] below 2^32. *)
Lemma floor_product_0_45 (n : Z) :
  0 <= n < 2 ^ 32 ->
  Math_floor (b64_mul (B64 n 0) b64_0_45) = 45 * n / 100.
Proof.
  intros Hn.
  replace (45 * n / 100) with (9 * n / 20)
    by (change 45 with (5 * 9); change 100 with (5 * 20);
        rewrite <- Z.mul_assoc; by rewrite Z.div_mul_cancel_l by lia).
  unfold b64_mul, b64_0_45, round53. cbn [mant expo].
  set (M := 8106479329266893).
  set (C := 18014398509481984).
  set (K := 9 * n / 20).
  assert (HK : 20 * K <= 9 * n <= 20 * K + 19).
  { subst K. Z.div_mod_to_equations. lia. }
  assert (HM : 20 * M = 9 * C + 4) by done.
  assert (HC : C = 2 ^ 54) by done.
  assert (H32 : 2 ^ 32 = 4294967296) by done.
  destruct (decide (n = 0)) as [->|Hn0]; [done|].
  assert (Hlog : Z.log2 (n * M) < 85).
  { apply Z.log2_lt_pow2; [lia|].
    assert (2 ^ 85 = 4294967296 * (2 * 4503599627370496)) as -> by done. nia. }
  set (s := Z.log2 (n * M) + 1 - 53) in *.
  destruct (Z.leb_spec s 0) as [Hs|Hs]; unfold Math_floor; cbn [mant expo].
  - change (0 <=? 0 + -54) with false. cbv iota.
    change (2 ^ (- (0 + -54))) with C.
    symmetry. apply (Z.div_unique _ _ _ (n * M - K * C)); lia.
  - assert (Hs32 : s <= 32) by lia.
    set (P := 2 ^ s) in *.
    set (T := 2 ^ (54 - s)).
    assert (HP : 1 <= P <= 2 ^ 32).
    { subst P. split.
      - assert (0 < 2 ^ s) by (apply Z.pow_pos_nonneg; lia). lia.
      - apply Z.pow_le_mono_r; lia. }
    assert (HT : 0 < T) by (subst T; apply Z.pow_pos_nonneg; lia).
    assert (HPT : P * T = C).
    { subst P T. rewrite <- Z.pow_add_r by lia.
      replace (s + (54 - s)) with 54 by lia. done. }
    set (q := n * M / P) in *.
    assert (Hq : P * q <= n * M < P * q + P).
    { subst q. pose proof (Z.mul_div_le (n * M) P ltac:(lia)).
      pose proof (Z.mul_succ_div_gt (n * M) P ltac:(lia)). lia. }
    assert (HKT : P * (K * T) = K * C) by (rewrite <- HPT; ring).
    assert (HKT1 : P * ((K + 1) * T) = (K + 1) * C) by (rewrite <- HPT; ring).
    assert (Hlo : K * T <= q).
    { destruct (Z.le_gt_cases (K * T) q) as [?|Hlt]; [done|]. exfalso.
      assert (P * (q + 1) <= P * (K * T))
        by (apply Z.mul_le_mono_nonneg_l; lia).
      lia. }
    assert (Hhi : q + 1 < (K + 1) * T).
    { destruct (Z.lt_ge_cases (q + 1) ((K + 1) * T)) as [?|Hge]; [done|]. exfalso.
      assert (P * ((K + 1) * T) <= P * (q + 1))
        by (apply Z.mul_le_mono_nonneg_l; lia).
      lia. }
    replace (0 <=? 0 + -54 + s) with false
      by (symmetry; apply Z.leb_gt; lia).
    replace (- (0 + -54 + s)) with (54 - s) by lia. fold T.
    match goal with |- (if ?up then _ else _) / _ = _ => destruct up end.
    + symmetry. apply (Z.div_unique _ _ _ (q + 1 - K * T)); lia.
    + symmetry. apply (Z.div_unique _ _ _ (q - K * T)); lia.
Qed.

Lemma effectiveThresholdOf_default (nq : jsstr) :
  Z.of_nat (length nq) < 2 ^ 32 ->
  effectiveThresholdOf None nq
  = Fin (Z.max 3 (45 * Z.of_nat (length nq) / 100)).
Proof.
  intros Hlen. unfold effectiveThresholdOf, b64_of_length.
  rewrite floor_product_0_45 by lia. done.
Qed.

(** ** The search as a whole *)

Lemma fuzzySearch_short st items query keys threshold limit :
  (length (normalize query) < 3)%nat ->
  fuzzySearch st items query keys threshold limit = ([], st).
Proof.
  intros Hlen. unfold fuzzySearch.
  by rewrite (proj2 (Nat.ltb_lt _ _) Hlen).
Qed.

Lemma fuzzySearch_miss st items query keys threshold limit :
  (3 <= length (normalize query))%nat ->
  cache st !! cacheKeyOf (normalize query)
                 (effectiveThresholdOf threshold (normalize query))
                 (default 5 limit) = None ->
  fuzzySearch st items query keys threshold limit =
  (rankResults (effectiveThresholdOf threshold (normalize query)) (default 5 limit)
     (scoreItem (normalize query) (splitWhiteSpace (normalize query)) keys <$> items),
   mkState
     (<[cacheKeyOf (normalize query)
          (effectiveThresholdOf threshold (normalize query)) (default 5 limit) :=
        rankResults (effectiveThresholdOf threshold (normalize query)) (default 5 limit)
          (scoreItem (normalize query) (splitWhiteSpace (normalize query)) keys <$> items)]>
        (cache st))
     (scoringCalls st + length items)).
Proof.
  intros Hlen Hmiss. unfold fuzzySearch.
  rewrite (proj2 (Nat.ltb_ge _ _) Hlen). cbv zeta. by rewrite Hmiss.
Qed.

Lemma fuzzySearch_hit st items query keys threshold limit cached :
  (3 <= length (normalize query))%nat ->
  cache st !! cacheKeyOf (normalize query)
                 (effectiveThresholdOf threshold (normalize query))
                 (default 5 limit) = Some cached ->
  fuzzySearch st items query keys threshold limit = (cached, st).
Proof.
  intros Hlen Hhit. unfold fuzzySearch.
  rewrite (proj2 (Nat.ltb_ge _ _) Hlen). cbv zeta. by rewrite Hhit.
Qed.

(** ** Phrases are no longer than the field *)

Lemma join_length (ws : list jsstr) :
  ws <> [] ->
  S (length (join (js " ") ws)) = sum_list_with (fun w => S (length w)) ws.
Proof.
  induction ws as [|w ws IH]; [done|]. intros _.
  destruct ws as [|w' ws].
  - simpl. lia.
  - change (join (js " ") (w :: w' :: ws))
      with (w ++ js " " ++ join (js " ") (w' :: ws)).
    cbn [sum_list_with] in *.
    rewrite <- IH by done. rewrite !length_app. simpl. lia.
Qed.

Lemma splitAux_total s : forall cur inSep,
  (sum_list_with (fun w => S (length w)) (splitAux cur inSep s)
   <= length cur + length s + 1)%nat.
Proof.
  induction s as [|c s IH]; intros cur inSep; simpl; [lia|].
  destruct (isWhiteSpace c).
  - specialize (IH [] true). simpl in IH.
    destruct inSep; cbn [sum_list_with]; lia.
  - specialize (IH (cur ++ [c]) false). rewrite length_app in IH.
    simpl in IH. lia.
Qed.

Lemma sum_list_take_drop (f : jsstr -> nat) (ws : list jsstr) i n :
  (sum_list_with f (take n (drop i ws)) <= sum_list_with f ws)%nat.
Proof.
  rewrite <- (take_drop i ws) at 2.
  rewrite <- (take_drop n (drop i ws)) at 2.
  rewrite !sum_list_with_app. lia.
Qed.

Lemma isPhrase_length fieldValue maxLength phrase :
  isPhrase (splitWhiteSpace fieldValue) maxLength phrase ->
  (length phrase <= length fieldValue)%nat.
Proof.
  intros (i & n & Hn & Hi & ->).
  assert (Hne : take n (drop i (splitWhiteSpace fieldValue)) <> []).
  { intros E. apply (f_equal length) in E.
    rewrite length_take, length_drop in E. simpl in E. lia. }
  pose proof (join_length _ Hne) as Hj.
  pose proof (sum_list_take_drop (fun w => S (length w))
                (splitWhiteSpace fieldValue) i n) as Hsub.
  pose proof (splitAux_total fieldValue [] false) as Htot.
  unfold splitWhiteSpace in *. simpl in Htot. lia.
Qed.

(** ** What [levenshtein] returns and the least number of edits *)

Lemma minimalEdits_unique a b v v' :
  minimalEdits a b v -> minimalEdits a b v' -> v = v'.
Proof.
  intros (H0 & He & Hmin) (H0' & He' & Hmin').
  pose proof (Hmin _ He'). pose proof (Hmin' _ He). lia.
Qed.

Lemma levenshtein_minimalEdits a b v :
  Z.of_nat (length a) <= 65535 -> Z.of_nat (length b) <= 65535 ->
  v = levenshtein a b <-> minimalEdits a b v.
Proof.
  intros Ha Hb.
  assert (Hlev : minimalEdits a b (levenshtein a b)).
  { rewrite levenshtein_distance by done. apply distance_minimal. }
  split; [by intros ->|].
  intros Hv. by eapply minimalEdits_unique.
Qed.

Lemma fieldSignal_edit nq qwc fieldValue v :
  Z.of_nat (length nq) <= 65535 ->
  Z.of_nat (length fieldValue) <= 65535 ->
  fieldSignal nq qwc fieldValue v <-> fieldEditSignal nq qwc fieldValue v.
Proof.
  intros Hq Hf. unfold fieldSignal, fieldEditSignal.
  rewrite (levenshtein_minimalEdits fieldValue nq v) by done.
  assert (Hph : forall phrase,
    isPhrase (splitWhiteSpace fieldValue) (qwc + 1) phrase ->
    (v = levenshtein phrase nq <-> minimalEdits phrase nq v)).
  { intros phrase Hp. apply levenshtein_minimalEdits; [|done].
    apply isPhrase_length in Hp. lia. }
  split.
  - intros [?|[(phrase & Hp & Hv)|?]]; [by left| |by right; right].
    right; left. exists phrase. split; [done|]. by apply Hph.
  - intros [?|[(phrase & Hp & Hv)|?]]; [by left| |by right; right].
    right; left. exists phrase. split; [done|]. by apply Hph.
Qed.

Lemma recordSignal_edit nq qwc it keys v :
  Z.of_nat (length nq) <= 65535 ->
  (forall key, key ∈ keys -> Z.of_nat (length (fieldValueOf it key)) <= 65535) ->
  recordSignal nq qwc it keys v <-> recordEditSignal nq qwc it keys v.
Proof.
  intros Hq Hf. unfold recordSignal, recordEditSignal. split.
  - intros (key & Hkey & Hne & Hs). exists key. split; [done|]. split; [done|].
    apply fieldSignal_edit; [done|by apply Hf|done].
  - intros (key & Hkey & Hne & Hs). exists key. split; [done|]. split; [done|].
    apply fieldSignal_edit; [done|by apply Hf|done].
Qed.

(** ** Closed computations

    An equation between closed terms is settled by evaluating its left
    side in the virtual machine. *)
Ltac by_computation :=
  lazymatch goal with
  | |- _ = ?r => vm_cast_no_check (eq_refl r)
  end.

(** The examples of the specification: "blue whale" over three titles,
    with the default threshold and limit, and with limit 1. *)
Example search_blue_whale :
  (fuzzySearch initialState [blueWhale; blueWale; redPanda] (js "blue whale")
     ["title"%string] None None).1 = [blueWhale; blueWale].
Proof. by_computation. Qed.

Example search_blue_whale_limit_1 :
  (fuzzySearch initialState [blueWhale; blueWale; redPanda] (js "blue whale")
     ["title"%string] None (Some 1)).1 = [blueWhale].
Proof. by_computation. Qed.

Example levenshtein_kitten_sitting :
  levenshtein (js "kitten") (js "sitting") = 3.
Proof. by_computation. Qed.

Example normalize_hello_world :
  normalize (js "  Hello, World! ") = js "hello world".
Proof. by_computation. Qed.

Example generateNGrams_three_words :
  generateNGrams [js "a"; js "b"; js "c"] 2
  = [js "a"; js "b"; js "c"; js "a b"; js "b c"].
Proof. by_computation. Qed.

(** * The properties of the specification *)

(** ** C1: a field equal to the query *)




(** ** C2: absent and non-text fields *)

(** C2, as stated, fails.  The value of the field goes through [String]
    before it is normalized, so a value that is not a text is scored as
    the text it converts to: the boolean of [featuredWhale] matches the
    query "true" exactly, and the record is returned, while it is not
    when the field is not listed.  A field that the record does not have
    reads as [undefined], which converts to the text "undefined": a
    record without properties matches the query "undefined" on any
    listed field. *)
Lemma absent_field_scored_as_text :
  fieldValueOf featuredWhale "featured" = js "true" /\
  scoreOf (js "true") [js "true"] ["featured"%string] featuredWhale = Fin 0 /\
  scoreOf (js "true") [js "true"] [] featuredWhale = Infinity /\
  (fuzzySearch initialState [featuredWhale] (js "true")
     ["featured"%string] None None).1 = [featuredWhale] /\
  (fuzzySearch initialState [featuredWhale] (js "true") [] None None).1 = [] /\
  getProp emptyRecord "title" = JSUndefined /\
  fieldValueOf emptyRecord "title" = js "undefined" /\
  scoreOf (js "undefined") [js "undefined"] ["title"%string] emptyRecord = Fin 0 /\
  (fuzzySearch initialState [emptyRecord] (js "undefined")
     ["title"%string] None None).1 = [emptyRecord] /\
  (fuzzySearch initialState [emptyRecord] (js "undefined") [] None None).1 = [].
Proof. repeat split; by_computation. Qed.

(** C2, amended: a listed field whose value, converted to a string, has
    an empty normalized form is skipped: the score of the record is the
    score it has without that field in the list, and when this holds for
    every record of the collection the search returns the same result
    (and leaves the same state) as without that field in the list. *)
Theorem empty_field_is_skipped
    (st : State) (items : list Item) (query : jsstr)
    (ks1 : list string) (key : string) (ks2 : list string)
    (threshold : option Score) (limit : option Z) (it : Item) :
  fieldValueOf it key = [] ->
  scoreOf (normalize query) (splitWhiteSpace (normalize query))
          (ks1 ++ key :: ks2) it =
  scoreOf (normalize query) (splitWhiteSpace (normalize query))
          (ks1 ++ ks2) it /\
  ((forall it', it' ∈ items -> fieldValueOf it' key = []) ->
   fuzzySearch st items query (ks1 ++ key :: ks2) threshold limit =
   fuzzySearch st items query (ks1 ++ ks2) threshold limit).
Proof.
  intros Hempty. split.
  - unfold scoreOf, scoreItem. simpl. by apply scoreFields_skip.
  - intros Hall. unfold fuzzySearch.
    replace (scoreItem (normalize query) (splitWhiteSpace (normalize query))
               (ks1 ++ key :: ks2) <$> items)
      with (scoreItem (normalize query) (splitWhiteSpace (normalize query))
               (ks1 ++ ks2) <$> items); [done|].
    apply list_fmap_ext. intros i it' Hit'. unfold scoreItem. f_equal.
    symmetry. apply scoreFields_skip, Hall.
    by eapply list_elem_of_lookup_2.
Qed.

Lemma empty_field_is_skipped_witness :
  fieldValueOf whaleWithNote "note" = [] /\
  scoreOf (normalize (js "blue whale"))
          (splitWhiteSpace (normalize (js "blue whale")))
          ["note"; "title"]%string whaleWithNote =
  scoreOf (normalize (js "blue whale"))
          (splitWhiteSpace (normalize (js "blue whale")))
          ["title"%string] whaleWithNote.
Proof.
  assert (H1 : fieldValueOf whaleWithNote "note" = []) by by_computation.
  split; [exact H1|].
  exact (proj1 (empty_field_is_skipped initialState [whaleWithNote]
           (js "blue whale") [] "note"%string ["title"%string] None None
           whaleWithNote H1)).
Defined.

(** ** C3: the distance computed by [levenshtein] *)

(** C3, as stated, fails for a string of 65536 characters: the cells are
    16 bits wide, the first column wraps to 0 in its last row, and
    [levenshtein] returns 1 for 65536 letters [a] against the string "b",
    which no single edit operation turns into one another. *)
Lemma levenshtein_wraps_at_65536 :
  levenshtein longString (js "b") = 1 /\
  ~ minimalEdits longString (js "b") (levenshtein longString (js "b")).
Proof.
  assert (HN : Z.of_nat (Z.to_nat 65536) = 65536) by (apply Z2Nat.id; lia).
  assert (Hlen : length longString = Z.to_nat 65536)
    by apply length_replicate.
  assert (Hlev : levenshtein longString (js "b") = 1).
  { unfold levenshtein. rewrite Hlen.
    destruct (Nat.eqb_spec (Z.to_nat 65536) 0) as [E|_]; [lia|].
    change (length (js "b")) with 1%nat. cbv iota. simpl Nat.eqb. cbv iota.
    unfold longString. by apply long_table_cell. }
  split; [exact Hlev|].
  rewrite Hlev. intros (_ & Hedits & _).
  apply edits_length in Hedits as [_ Hle].
  rewrite Hlen in Hle. change (length (js "b")) with 1%nat in Hle.
  change (Z.to_nat 1) with 1%nat in Hle. lia.
Qed.

(** C3, amended: for strings [a] and [b] of at most 65535 characters
    each, [levenshtein a b] is a non-negative integer equal to the least
    number of single-character insertions, deletions and substitutions
    that turn [a] into [b]; [levenshtein "" b] is the length of [b] and
    [levenshtein a ""] the length of [a]; and for [i, j >= 1] the cell
    [(i, j)] of the table equals its diagonal predecessor when
    [a[i-1] = b[j-1]], and otherwise 1 + the minimum of the diagonal,
    left and upper cells. *)
Theorem levenshtein_is_edit_distance (a b : jsstr) :
  Z.of_nat (length a) <= 65535 -> Z.of_nat (length b) <= 65535 ->
  minimalEdits a b (levenshtein a b) /\
  levenshtein [] b = Z.of_nat (length b) /\
  levenshtein a [] = Z.of_nat (length a) /\
  forall i j : nat, (1 <= i <= length a)%nat -> (1 <= j <= length b)%nat ->
    getCell (levenshteinTable a b) i j =
    if decide (a !! (i - 1)%nat = b !! (j - 1)%nat)
    then getCell (levenshteinTable a b) (i - 1) (j - 1)
    else 1 + Z.min (Z.min (getCell (levenshteinTable a b) (i - 1) (j - 1))
                          (getCell (levenshteinTable a b) i (j - 1)))
                   (getCell (levenshteinTable a b) (i - 1) j).
Proof.
  intros Ha Hb. split; [|split; [|split]].
  - rewrite levenshtein_distance by done. apply distance_minimal.
  - done.
  - unfold levenshtein. by destruct a.
  - intros i j Hi Hj.
    rewrite !levenshteinTable_distance by lia.
    destruct i as [|i]; [lia|]. destruct j as [|j]; [lia|].
    replace (S i - 1)%nat with i by lia. replace (S j - 1)%nat with j by lia.
    destruct (lookup_lt_is_Some_2 a i) as [x Hx]; [lia|].
    destruct (lookup_lt_is_Some_2 b j) as [y Hy]; [lia|].
    rewrite (rev_take_S a i x Hx), (rev_take_S b j y Hy).
    rewrite distance_cons, Hx, Hy.
    destruct (decide (x = y)) as [->|Hne].
    + by rewrite decide_True.
    + rewrite decide_False by congruence. lia.
Qed.

Lemma levenshtein_is_edit_distance_witness :
  Z.of_nat (length (js "kitten")) <= 65535 /\
  Z.of_nat (length (js "sitting")) <= 65535 /\
  minimalEdits (js "kitten") (js "sitting") (levenshtein (js "kitten") (js "sitting")).
Proof.
  assert (H1 : Z.of_nat (length (js "kitten")) <= 65535) by (simpl; lia).
  assert (H2 : Z.of_nat (length (js "sitting")) <= 65535) by (simpl; lia).
  split; [exact H1|]. split; [exact H2|].
  exact (proj1 (levenshtein_is_edit_distance (js "kitten") (js "sitting") H1 H2)).
Defined.

(** ** C4: the score as a minimum *)

(** A string without white space, made of characters that [normalize]
    keeps, is its own normalized form and splits into one word. *)
Lemma dropWhile_none {A} (p : A -> bool) (l : list A) :
  Forall (fun x => p x = false) l -> dropWhile p l = l.
Proof. intros [|x l' Hx _]; simpl; [done|by rewrite Hx]. Qed.

Lemma normalize_word w :
  Forall (fun c => isAlnumOrSpace c = true) w ->
  Forall (fun c => isWhiteSpace c = false) w ->
  normalize w = w.
Proof.
  intros Hk Hw. unfold normalize.
  rewrite (toLowerCase_kept _ Hk), (stripNonAlnum_kept_id _ Hk).
  unfold trim, trimStart, trimEnd. rewrite (dropWhile_none _ _ Hw).
  rewrite dropWhile_none by by apply Forall_rev.
  apply rev_involutive.
Qed.

Lemma splitAux_word w : forall cur,
  Forall (fun c => isWhiteSpace c = false) w ->
  splitAux cur false w = [cur ++ w].
Proof.
  induction w as [|c w IH]; intros cur Hw; simpl.
  - by rewrite app_nil_r.
  - apply Forall_cons in Hw as [Hc Hw].
    rewrite Hc, IH by done. by rewrite <- app_assoc.
Qed.

Lemma generateNGrams_one_word (w : jsstr) : generateNGrams [w] 2 = [w].
Proof. done. Qed.

(** A field of one word that passes the early returns and does not
    contain the query of one word: the score is what [levenshtein] gives
    for it. *)
Lemma scoreFields_one_word nq it key w :
  fieldValueOf it key = w -> w <> [] -> w <> nq ->
  startsWith w nq = false -> includes w nq = false ->
  splitWhiteSpace w = [w] ->
  scoreFields nq [nq] it [key] Infinity = Fin (levenshtein w nq).
Proof.
  intros Hf Hne Hneq Hsw Hinc Hsp. cbn [scoreFields]. rewrite Hf.
  rewrite (bool_decide_eq_false_2 (w = [])) by done.
  rewrite (bool_decide_eq_false_2 (w = nq)) by done.
  rewrite Hsw, Hinc, Hsp.
  change (length [nq] + 1)%nat with 2%nat.
  rewrite generateNGrams_one_word.
  cbn [foldl Math_min]. by rewrite Z.min_id.
Qed.

(** Such a field gives no candidate value [v] when it is longer than the
    query by more than [v] characters: [v] edit operations change the
    length by [v] at most. *)
Lemma one_word_no_edit_signal nq qwc it key w v :
  fieldValueOf it key = w -> includes w nq = false ->
  splitWhiteSpace w = [w] ->
  (Z.to_nat v + length nq < length w)%nat ->
  ~ recordEditSignal nq qwc it [key] v.
Proof.
  intros Hf Hinc Hsp Hlen (key' & ->%list_elem_of_singleton & _ & Hsig).
  rewrite Hf in Hsig.
  assert (Hno : ~ minimalEdits w nq v).
  { intros (_ & He & _). apply edits_length in He as [_ He]. lia. }
  destruct Hsig as [[Hi _]|[(phrase & Hp & Hmin)|Hmin]]; [congruence| |done].
  rewrite Hsp in Hp. destruct Hp as (i & len & Hl & Hi & ->).
  cbn [length] in Hi.
  assert (i = 0%nat) as -> by lia. assert (len = 1%nat) as -> by lia.
  done.
Qed.

(** The string of 65536 letters [a], and the record that holds it. *)
Lemma longString_length : length longString = Z.to_nat 65536.
Proof. apply length_replicate. Qed.

Lemma longString_levenshtein : levenshtein longString (js "bbb") = 3.
Proof.
  unfold levenshtein. rewrite longString_length.
  destruct (Nat.eqb_spec (Z.to_nat 65536) 0) as [E|_]; [lia|].
  change (length (js "bbb")) with 3%nat. cbv iota.
  change (3 =? 0)%nat with false. cbv iota.
  unfold longString. apply (long_table_row _ 3); lia.
Qed.

Lemma longString_kept : Forall (fun c => isAlnumOrSpace c = true) longString.
Proof. by apply Forall_replicate. Qed.

Lemma longString_no_space : Forall (fun c => isWhiteSpace c = false) longString.
Proof. by apply Forall_replicate. Qed.

Lemma longTitle_field : fieldValueOf longTitle "title" = longString.
Proof.
  unfold fieldValueOf, getProp, longTitle. rewrite lookup_singleton.
  cbn [default ToString].
  apply normalize_word; [apply longString_kept|apply longString_no_space].
Qed.

Lemma longString_startsWith : startsWith longString (js "bbb") = false.
Proof. by_computation. Qed.

Lemma longString_includes : includes longString (js "bbb") = false.
Proof. by_computation. Qed.

Lemma longString_one_word : splitWhiteSpace longString = [longString].
Proof. apply (splitAux_word longString []), longString_no_space. Qed.

Lemma longTitle_scoreFields :
  scoreFields (normalize (js "bbb")) (splitWhiteSpace (normalize (js "bbb")))
    longTitle ["title"%string] Infinity = Fin 3.
Proof.
  change (normalize (js "bbb")) with (js "bbb").
  change (splitWhiteSpace (js "bbb")) with [js "bbb"].
  rewrite <- longString_levenshtein.
  pose proof longString_length as Hlen.
  apply scoreFields_one_word.
  - apply longTitle_field.
  - intros E. apply (f_equal length) in E. rewrite Hlen in E.
    change (length (@nil ascii)) with 0%nat in E. lia.
  - intros E. apply (f_equal length) in E. rewrite Hlen in E.
    change (length (js "bbb")) with 3%nat in E. lia.
  - apply longString_startsWith.
  - apply longString_includes.
  - apply longString_one_word.
Qed.

(** C4, as stated, fails in three ways.

    The distances are those of [levenshtein], whose 16-bit cells wrap:
    for the query "bbb" the title of 65536 letters [a] scores 3, and the
    record is returned under the default threshold 3, although no 3 edit
    operations turn that title into "bbb"; the score is not the minimum
    of the edit distances.

    The filter keeps a score [Infinity] under the threshold [Infinity]:
    with that threshold a record whose only listed field normalizes to
    the empty string is returned, on the non-cached path.

    The cache is keyed by the query, the threshold and the limit only:
    after a search over the title, the same search over [note] (a field
    whose normalized value is empty in [whaleWithNote]) finds the stored
    sequence and returns the record. *)
Lemma score_not_minimum_of_edit_distances :
  ((forall key, key ∈ ["title"%string] ->
      fieldValueOf longTitle key <> [] ->
      fieldValueOf longTitle key <> normalize (js "bbb") /\
      startsWith (fieldValueOf longTitle key) (normalize (js "bbb")) = false) /\
   scoreOf (normalize (js "bbb")) (splitWhiteSpace (normalize (js "bbb")))
     ["title"%string] longTitle = Fin 3 /\
   ~ isMinimum
       (recordEditSignal (normalize (js "bbb"))
          (length (splitWhiteSpace (normalize (js "bbb"))))
          longTitle ["title"%string])
       (scoreOf (normalize (js "bbb")) (splitWhiteSpace (normalize (js "bbb")))
          ["title"%string] longTitle) /\
   (fuzzySearch initialState [longTitle] (js "bbb") ["title"%string] None None).1
   = [longTitle]) /\
  ((forall key, key ∈ ["note"%string] -> fieldValueOf whaleWithNote key = []) /\
   cache initialState
     !! cacheKeyOf (normalize (js "blue whale"))
          (effectiveThresholdOf (Some Infinity) (normalize (js "blue whale")))
          (default 5 None) = None /\
   (fuzzySearch initialState [whaleWithNote] (js "blue whale")
      ["note"%string] (Some Infinity) None).1
   = [whaleWithNote]) /\
  ((forall key, key ∈ ["note"%string] -> fieldValueOf whaleWithNote key = []) /\
   scoreOf (normalize (js "blue whale"))
           (splitWhiteSpace (normalize (js "blue whale")))
           ["note"%string] whaleWithNote = Infinity /\
   (fuzzySearch
      (fuzzySearch initialState [whaleWithNote] (js "blue whale")
         ["title"%string] None None).2
      [whaleWithNote] (js "blue whale") ["note"%string] None None).1
   = [whaleWithNote]).
Proof.
  assert (Hscore :
    scoreOf (normalize (js "bbb")) (splitWhiteSpace (normalize (js "bbb")))
      ["title"%string] longTitle = Fin 3).
  { unfold scoreOf, scoreItem. cbn [score]. apply longTitle_scoreFields. }
  pose proof longString_length as Hlen.
  split; [|split].
  - split; [|split; [exact Hscore|split]].
    + intros key ->%list_elem_of_singleton _. rewrite longTitle_field.
      change (normalize (js "bbb")) with (js "bbb").
      split; [|apply longString_startsWith].
      intros E. apply (f_equal length) in E. rewrite Hlen in E.
      change (length (js "bbb")) with 3%nat in E. lia.
    + rewrite Hscore. intros [Hsig _]. revert Hsig.
      apply (one_word_no_edit_signal _ _ _ _ longString).
      * apply longTitle_field.
      * change (normalize (js "bbb")) with (js "bbb").
        apply longString_includes.
      * apply longString_one_word.
      * rewrite Hlen.
        change (length (normalize (js "bbb"))) with 3%nat. lia.
    + rewrite fuzzySearch_miss; [|vm_compute; lia|by_computation].
      cbn [fst]. rewrite list_fmap_singleton. unfold scoreItem.
      rewrite longTitle_scoreFields. by_computation.
  - split; [|split].
    + intros key ->%list_elem_of_singleton. by_computation.
    + by_computation.
    + by_computation.
  - split; [|split].
    + intros key ->%list_elem_of_singleton. by_computation.
    + by_computation.
    + by_computation.
Qed.

(** C4, amended: for a record on which neither the exact nor the prefix
    short-circuit fires, the score is the minimum, over the listed fields
    with a non-empty normalized value, of: 2 if the field contains the
    normalized query, what [levenshtein] returns for the query and every
    phrase of 1..(queryWordCount+1) consecutive field words, and what it
    returns for the whole field and the query; when the normalized query
    and the normalized listed fields have at most 65535 characters each,
    these are the edit distances (the least numbers of single-character
    insertions, deletions and substitutions), and the score is the
    minimum with the edit distances in their place; a record with no
    non-empty listed field has score [Infinity], and it is not in a
    result computed on the non-cached path under an effective threshold
    other than [Infinity]. *)
Theorem score_is_minimum_of_signals
    (st : State) (items : list Item) (query : jsstr) (keys : list string)
    (threshold : option Score) (limit : option Z) (it : Item) :
  (forall key, key ∈ keys -> fieldValueOf it key <> [] ->
     fieldValueOf it key <> normalize query /\
     startsWith (fieldValueOf it key) (normalize query) = false) ->
  isMinimum
    (recordSignal (normalize query)
       (length (splitWhiteSpace (normalize query))) it keys)
    (scoreOf (normalize query) (splitWhiteSpace (normalize query)) keys it) /\
  (Z.of_nat (length (normalize query)) <= 65535 ->
   (forall key, key ∈ keys ->
      Z.of_nat (length (fieldValueOf it key)) <= 65535) ->
   isMinimum
     (recordEditSignal (normalize query)
        (length (splitWhiteSpace (normalize query))) it keys)
     (scoreOf (normalize query) (splitWhiteSpace (normalize query)) keys it)) /\
  ((forall key, key ∈ keys -> fieldValueOf it key = []) ->
   scoreOf (normalize query) (splitWhiteSpace (normalize query)) keys it
     = Infinity /\
   (cache st !! cacheKeyOf (normalize query)
                   (effectiveThresholdOf threshold (normalize query))
                   (default 5 limit) = None ->
    effectiveThresholdOf threshold (normalize query) <> Infinity ->
    it ∉ (fuzzySearch st items query keys threshold limit).1)).
Proof.
  intros Hno.
  assert (Hmin : isMinimum
    (recordSignal (normalize query)
       (length (splitWhiteSpace (normalize query))) it keys)
    (scoreOf (normalize query) (splitWhiteSpace (normalize query)) keys it)).
  { unfold scoreOf, scoreItem. simpl.
    eapply isMinimum_ext;
      [|apply (scoreFields_minimum _ _ _ _ (fun _ => False) Infinity Hno)].
    + intros v. simpl. tauto.
    + simpl. tauto. }
  split; [exact Hmin|]. split.
  - intros Hq Hf. eapply isMinimum_ext; [|exact Hmin].
    intros v. by apply recordSignal_edit.
  - intros Hall.
    assert (Hinf : scoreOf (normalize query)
                     (splitWhiteSpace (normalize query)) keys it = Infinity).
    { unfold scoreOf, scoreItem. simpl. by apply scoreFields_all_empty. }
    split; [done|]. intros Hmiss Hthr.
    destruct (Nat.lt_ge_cases (length (normalize query)) 3) as [Hlen|Hlen].
    + rewrite fuzzySearch_short by done. simpl. apply not_elem_of_nil.
    + rewrite fuzzySearch_miss by done. simpl.
      by apply rankResults_not_infinity.
Qed.

Lemma score_is_minimum_of_signals_witness :
  ((forall key, key ∈ ["title"%string] ->
      fieldValueOf bigBlueWhales key <> [] ->
      fieldValueOf bigBlueWhales key <> normalize (js "blue whale") /\
      startsWith (fieldValueOf bigBlueWhales key) (normalize (js "blue whale"))
        = false) /\
   Z.of_nat (length (normalize (js "blue whale"))) <= 65535 /\
   (forall key, key ∈ ["title"%string] ->
      Z.of_nat (length (fieldValueOf bigBlueWhales key)) <= 65535) /\
   isMinimum
     (recordSignal (normalize (js "blue whale"))
        (length (splitWhiteSpace (normalize (js "blue whale"))))
        bigBlueWhales ["title"%string])
     (Fin 1) /\
   isMinimum
     (recordEditSignal (normalize (js "blue whale"))
        (length (splitWhiteSpace (normalize (js "blue whale"))))
        bigBlueWhales ["title"%string])
     (Fin 1)) /\
  ((forall key, key ∈ ["note"%string] -> fieldValueOf whaleWithNote key = []) /\
   cache initialState
     !! cacheKeyOf (normalize (js "blue whale"))
          (effectiveThresholdOf None (normalize (js "blue whale")))
          (default 5 None) = None /\
   effectiveThresholdOf None (normalize (js "blue whale")) <> Infinity /\
   whaleWithNote ∉
     (fuzzySearch initialState [whaleWithNote] (js "blue whale")
        ["note"%string] None None).1).
Proof.
  assert (H1 : forall key, key ∈ ["title"%string] ->
     fieldValueOf bigBlueWhales key <> [] ->
     fieldValueOf bigBlueWhales key <> normalize (js "blue whale") /\
     startsWith (fieldValueOf bigBlueWhales key) (normalize (js "blue whale"))
       = false).
  { intros key ->%list_elem_of_singleton _. split; [|by_computation].
    intros E; vm_compute in E; discriminate. }
  assert (H2 : Z.of_nat (length (normalize (js "blue whale"))) <= 65535)
    by (vm_compute; discriminate).
  assert (H3 : forall key, key ∈ ["title"%string] ->
     Z.of_nat (length (fieldValueOf bigBlueWhales key)) <= 65535).
  { intros key ->%list_elem_of_singleton. vm_compute. discriminate. }
  assert (H4 : forall key, key ∈ ["note"%string] ->
     fieldValueOf whaleWithNote key = []).
  { intros key ->%list_elem_of_singleton. by_computation. }
  assert (H5 : forall key, key ∈ ["note"%string] ->
     fieldValueOf whaleWithNote key <> [] ->
     fieldValueOf whaleWithNote key <> normalize (js "blue whale") /\
     startsWith (fieldValueOf whaleWithNote key) (normalize (js "blue whale"))
       = false).
  { intros key Hkey Hne. by destruct (Hne (H4 key Hkey)). }
  assert (H6 : cache initialState
     !! cacheKeyOf (normalize (js "blue whale"))
          (effectiveThresholdOf None (normalize (js "blue whale")))
          (default 5 None) = None) by by_computation.
  assert (H7 : effectiveThresholdOf None (normalize (js "blue whale")) <> Infinity)
    by done.
  split.
  - split; [exact H1|]. split; [exact H2|]. split; [exact H3|].
    pose proof (score_is_minimum_of_signals initialState [bigBlueWhales]
                  (js "blue whale") ["title"%string] None None bigBlueWhales H1)
      as (Hlev & Hedit & _).
    split; [exact Hlev|exact (Hedit H2 H3)].
  - split; [exact H4|]. split; [exact H6|]. split; [exact H7|].
    exact (proj2 (proj2 (proj2 (score_is_minimum_of_signals initialState
             [whaleWithNote] (js "blue whale") ["note"%string] None None
             whaleWithNote H5)) H4) H6 H7).
Defined.

(** ** C5: queries shorter than three characters *)

(** C5: whatever the records, the fields, the threshold, the limit and
    the state of the cache, a query whose normalized form has fewer than
    3 characters gets the empty sequence (and the state is left as it
    was). *)
Theorem short_query_returns_nothing
    (st : State) (items : list Item) (query : jsstr) (keys : list string)
    (threshold : option Score) (limit : option Z) :
  (length (normalize query) < 3)%nat ->
  fuzzySearch st items query keys threshold limit = ([], st).
Proof. apply fuzzySearch_short. Qed.

Lemma short_query_returns_nothing_witness :
  (length (normalize (js " B-l! ")) < 3)%nat /\
  fuzzySearch initialState [blueWhale; blueWale; redPanda] (js " B-l! ")
    ["title"%string] None None = ([], initialState).
Proof.
  assert (H1 : (length (normalize (js " B-l! ")) < 3)%nat)
    by (vm_compute; lia).
  split; [exact H1|].
  exact (short_query_returns_nothing initialState [blueWhale; blueWale; redPanda]
           (js " B-l! ") ["title"%string] None None H1).
Defined.

(** ** C6: the default threshold *)

(** C6: when no threshold is given, the effective threshold is
    max(3, floor(0.45 * n)) for a normalized query of [n >= 3]
    characters ([n] below 2^32, as the length of every string is); this
    value is the one in the cache key and the one the scores are
    filtered with.  For "hello" it is 3. *)
Theorem default_threshold
    (st : State) (items : list Item) (query : jsstr) (keys : list string)
    (limit : option Z) :
  (3 <= length (normalize query))%nat ->
  Z.of_nat (length (normalize query)) < 2 ^ 32 ->
  effectiveThresholdOf None (normalize query)
    = Fin (Z.max 3 (45 * Z.of_nat (length (normalize query)) / 100)) /\
  fuzzySearch st items query keys None limit =
    match cache st !! cacheKeyOf (normalize query)
            (Fin (Z.max 3 (45 * Z.of_nat (length (normalize query)) / 100)))
            (default 5 limit) with
    | Some cached => (cached, st)
    | None =>
        (rankResults
           (Fin (Z.max 3 (45 * Z.of_nat (length (normalize query)) / 100)))
           (default 5 limit)
           (scoreItem (normalize query) (splitWhiteSpace (normalize query)) keys
              <$> items),
         mkState
           (<[cacheKeyOf (normalize query)
                (Fin (Z.max 3 (45 * Z.of_nat (length (normalize query)) / 100)))
                (default 5 limit) :=
              rankResults
                (Fin (Z.max 3 (45 * Z.of_nat (length (normalize query)) / 100)))
                (default 5 limit)
                (scoreItem (normalize query) (splitWhiteSpace (normalize query))
                   keys <$> items)]> (cache st))
           (scoringCalls st + length items))
    end /\
  effectiveThresholdOf None (normalize (js "hello")) = Fin 3.
Proof.
  intros Hlen Hbound.
  pose proof (effectiveThresholdOf_default (normalize query) Hbound) as HT.
  split; [exact HT|]. split; [|by_computation].
  rewrite <- HT.
  destruct (cache st !! cacheKeyOf (normalize query)
              (effectiveThresholdOf None (normalize query)) (default 5 limit))
    as [cached|] eqn:E.
  - by apply fuzzySearch_hit.
  - by apply fuzzySearch_miss.
Qed.

Lemma default_threshold_witness :
  (3 <= length (normalize (js "Hello!")))%nat /\
  Z.of_nat (length (normalize (js "Hello!"))) < 2 ^ 32 /\
  effectiveThresholdOf None (normalize (js "Hello!"))
    = Fin (Z.max 3 (45 * Z.of_nat (length (normalize (js "Hello!"))) / 100)).
Proof.
  assert (H1 : (3 <= length (normalize (js "Hello!")))%nat)
    by (vm_compute; lia).
  assert (H2 : Z.of_nat (length (normalize (js "Hello!"))) < 2 ^ 32)
    by (by vm_compute).
  split; [exact H1|]. split; [exact H2|].
  exact (proj1 (default_threshold initialState [] (js "Hello!") [] None H1 H2)).
Defined.

(** ** C7: order of the result *)

(** C7: on the non-cached path the records of the result are in
    ascending order of their score, and the records of any one score
    appear in the order they have in the collection. *)
Theorem result_sorted_and_stable
    (st : State) (items : list Item) (query : jsstr) (keys : list string)
    (threshold : option Score) (limit : option Z) :
  cache st !! cacheKeyOf (normalize query)
                 (effectiveThresholdOf threshold (normalize query))
                 (default 5 limit) = None ->
  (forall (i j : nat) (ri rj : Item), (i <= j)%nat ->
     (fuzzySearch st items query keys threshold limit).1 !! i = Some ri ->
     (fuzzySearch st items query keys threshold limit).1 !! j = Some rj ->
     scoreLe
       (scoreOf (normalize query) (splitWhiteSpace (normalize query)) keys ri)
       (scoreOf (normalize query) (splitWhiteSpace (normalize query)) keys rj)) /\
  (forall s : Score,
     filter (fun it => scoreOf (normalize query)
                         (splitWhiteSpace (normalize query)) keys it = s)
            (fuzzySearch st items query keys threshold limit).1
     `prefix_of`
     filter (fun it => scoreOf (normalize query)
                         (splitWhiteSpace (normalize query)) keys it = s)
            items).
Proof.
  intros Hmiss.
  destruct (Nat.lt_ge_cases (length (normalize query)) 3) as [Hlen|Hlen].
  { rewrite fuzzySearch_short by done. simpl. split.
    - intros i j ri rj _ Hi. done.
    - intros s. apply prefix_nil. }
  rewrite fuzzySearch_miss by done. simpl. split.
  - intros i j ri rj. apply rankResults_ascending.
  - intros s. apply rankResults_stable.
Qed.

Lemma result_sorted_and_stable_witness :
  cache initialState !! cacheKeyOf (normalize (js "blue whale"))
                 (effectiveThresholdOf None (normalize (js "blue whale")))
                 (default 5 None) = None /\
  (forall s : Score,
     filter (fun it => scoreOf (normalize (js "blue whale"))
                         (splitWhiteSpace (normalize (js "blue whale")))
                         ["title"%string] it = s)
            (fuzzySearch initialState [blueWale; redPanda; blueWhale]
               (js "blue whale") ["title"%string] None None).1
     `prefix_of`
     filter (fun it => scoreOf (normalize (js "blue whale"))
                         (splitWhiteSpace (normalize (js "blue whale")))
                         ["title"%string] it = s)
            [blueWale; redPanda; blueWhale]).
Proof.
  assert (H1 : cache initialState !! cacheKeyOf (normalize (js "blue whale"))
                 (effectiveThresholdOf None (normalize (js "blue whale")))
                 (default 5 None) = None) by apply lookup_empty.
  split; [exact H1|].
  exact (proj2 (result_sorted_and_stable initialState
           [blueWale; redPanda; blueWhale] (js "blue whale")
           ["title"%string] None None H1)).
Defined.

(** ** C8: the second of two identical calls *)

(** C8: of two consecutive calls with the same arguments, the second
    returns the sequence the first returned and leaves the state as the
    first left it; in particular it runs the scoring callback on no
    record. *)
Theorem second_call_served_from_cache
    (st : State) (items : list Item) (query : jsstr) (keys : list string)
    (threshold : option Score) (limit : option Z) :
  (fuzzySearch (fuzzySearch st items query keys threshold limit).2
     items query keys threshold limit).1
  = (fuzzySearch st items query keys threshold limit).1 /\
  scoringCalls
    (fuzzySearch (fuzzySearch st items query keys threshold limit).2
       items query keys threshold limit).2
  = scoringCalls (fuzzySearch st items query keys threshold limit).2 /\
  (fuzzySearch (fuzzySearch st items query keys threshold limit).2
     items query keys threshold limit).2
  = (fuzzySearch st items query keys threshold limit).2.
Proof.
  destruct (Nat.lt_ge_cases (length (normalize query)) 3) as [Hlen|Hlen].
  { rewrite (fuzzySearch_short st) by done. cbn [fst snd].
    by rewrite fuzzySearch_short by done. }
  destruct (cache st !! cacheKeyOf (normalize query)
              (effectiveThresholdOf threshold (normalize query))
              (default 5 limit)) as [cached|] eqn:E.
  - rewrite (fuzzySearch_hit st _ _ _ _ _ cached) by done. cbn [fst snd].
    by rewrite (fuzzySearch_hit st _ _ _ _ _ cached) by done.
  - rewrite (fuzzySearch_miss st) by done. cbn [fst snd].
    erewrite fuzzySearch_hit; [done|done|].
    cbn [cache]. by rewrite lookup_insert_eq.
Qed.

(** ** C9: normalization *)

(** C9: [normalize] is idempotent; and it is a function of its argument
    alone (it neither reads nor writes the state of the module): equal
    arguments give equal results. *)
Theorem normalize_idempotent (s : jsstr) :
  normalize (normalize s) = normalize s /\
  forall s' : jsstr, s = s' -> normalize s = normalize s'.
Proof.
  split; [|by intros s' ->].
  pose proof (normalize_kept s) as Hkept.
  unfold normalize at 1.
  rewrite (toLowerCase_kept _ Hkept), (stripNonAlnum_kept_id _ Hkept).
  unfold normalize. apply trim_idempotent.
Qed.

(** ** C10: the distance is at most the longer length *)

(** C10: for strings of at most 65535 characters each,
    [levenshtein a b] is at most the larger of the two lengths. *)
Theorem levenshtein_le_longer (a b : jsstr) :
  Z.of_nat (length a) <= 65535 -> Z.of_nat (length b) <= 65535 ->
  levenshtein a b <= Z.max (Z.of_nat (length a)) (Z.of_nat (length b)).
Proof.
  intros Ha Hb. rewrite levenshtein_distance by done.
  pose proof (distance_le_max (rev a) (rev b)) as Hle.
  rewrite !length_rev in Hle. lia.
Qed.

Lemma levenshtein_le_longer_witness :
  Z.of_nat (length (js "flaw")) <= 65535 /\
  Z.of_nat (length (js "lawn")) <= 65535 /\
  levenshtein (js "flaw") (js "lawn")
    <= Z.max (Z.of_nat (length (js "flaw"))) (Z.of_nat (length (js "lawn"))).
Proof.
  assert (H1 : Z.of_nat (length (js "flaw")) <= 65535) by (simpl; lia).
  assert (H2 : Z.of_nat (length (js "lawn")) <= 65535) by (simpl; lia).
  split; [exact H1|]. split; [exact H2|].
  exact (levenshtein_le_longer (js "flaw") (js "lawn") H1 H2).
Defined.


(** * Further properties of the code *)

(** ** [levenshtein] as a metric *)

Lemma edit1_sym a b : edit1 a b -> edit1 b a.
Proof.
  intros [p s c|p s c|p s c d Hcd].
  - apply edit_delete.
  - apply edit_insert.
  - apply edit_substitute. congruence.
Qed.

Lemma edits_sym k a b : edits k a b -> edits k b a.
Proof.
  induction 1 as [a|k a a' b He Hes IH]; [constructor|].
  eapply edits_more; [exact IH|]. by apply edit1_sym.
Qed.

Lemma edits_trans k l a b c :
  edits k a b -> edits l b c -> edits (k + l) a c.
Proof.
  induction 1 as [a|k a a' b He Hes IH]; intros Hbc; [done|].
  simpl. eapply edits_step; [exact He|]. by apply IH.
Qed.

Lemma distance_sym a b : distance a b = distance b a.
Proof.
  apply Nat.le_antisymm; apply distance_lower, edits_sym, distance_upper.
Qed.

Lemma distance_triangle a b c :
  (distance a c <= distance a b + distance b c)%nat.
Proof.
  apply distance_lower. eapply edits_trans; apply distance_upper.
Qed.

Lemma distance_zero a b : distance a b = 0%nat -> a = b.
Proof.
  intros H0. pose proof (distance_upper a b) as He. rewrite H0 in He.
  by inversion He.
Qed.

(** X1: for strings of at most 65535 characters, [levenshtein] does not
    depend on the order of its arguments. *)
Theorem levenshtein_symmetric (a b : jsstr) :
  Z.of_nat (length a) <= 65535 -> Z.of_nat (length b) <= 65535 ->
  levenshtein a b = levenshtein b a.
Proof.
  intros Ha Hb. rewrite !levenshtein_distance by done.
  by rewrite distance_sym.
Qed.

Lemma levenshtein_symmetric_witness :
  Z.of_nat (length (js "flaw")) <= 65535 /\
  Z.of_nat (length (js "lawn")) <= 65535 /\
  levenshtein (js "flaw") (js "lawn") = levenshtein (js "lawn") (js "flaw").
Proof.
  assert (H1 : Z.of_nat (length (js "flaw")) <= 65535) by (simpl; lia).
  assert (H2 : Z.of_nat (length (js "lawn")) <= 65535) by (simpl; lia).
  split; [exact H1|]. split; [exact H2|].
  exact (levenshtein_symmetric (js "flaw") (js "lawn") H1 H2).
Defined.

(** X2: for strings of at most 65535 characters, [levenshtein] returns 0
    exactly when the two strings are equal. *)
Theorem levenshtein_zero_iff_equal (a b : jsstr) :
  Z.of_nat (length a) <= 65535 -> Z.of_nat (length b) <= 65535 ->
  levenshtein a b = 0 <-> a = b.
Proof.
  intros Ha Hb. rewrite levenshtein_distance by done. split.
  - intros H0. assert (Hd : distance (rev a) (rev b) = 0%nat) by lia.
    apply distance_zero in Hd.
    by rewrite <- (rev_involutive a), Hd, rev_involutive.
  - intros ->. by rewrite distance_refl.
Qed.

Lemma levenshtein_zero_iff_equal_witness :
  Z.of_nat (length (js "whale")) <= 65535 /\
  Z.of_nat (length (js "whale")) <= 65535 /\
  (levenshtein (js "whale") (js "whale") = 0 <-> js "whale" = js "whale").
Proof.
  assert (H1 : Z.of_nat (length (js "whale")) <= 65535) by (simpl; lia).
  split; [exact H1|]. split; [exact H1|].
  exact (levenshtein_zero_iff_equal (js "whale") (js "whale") H1 H1).
Defined.

(** X3: for strings of at most 65535 characters, [levenshtein] satisfies
    the triangle inequality. *)
Theorem levenshtein_triangle (a b c : jsstr) :
  Z.of_nat (length a) <= 65535 -> Z.of_nat (length b) <= 65535 ->
  Z.of_nat (length c) <= 65535 ->
  levenshtein a c <= levenshtein a b + levenshtein b c.
Proof.
  intros Ha Hb Hc. rewrite !levenshtein_distance by done.
  pose proof (distance_triangle (rev a) (rev b) (rev c)). lia.
Qed.

Lemma levenshtein_triangle_witness :
  Z.of_nat (length (js "kitten")) <= 65535 /\
  Z.of_nat (length (js "sitten")) <= 65535 /\
  Z.of_nat (length (js "sitting")) <= 65535 /\
  levenshtein (js "kitten") (js "sitting")
    <= levenshtein (js "kitten") (js "sitten")
       + levenshtein (js "sitten") (js "sitting").
Proof.
  assert (H1 : Z.of_nat (length (js "kitten")) <= 65535) by (simpl; lia).
  assert (H2 : Z.of_nat (length (js "sitten")) <= 65535) by (simpl; lia).
  assert (H3 : Z.of_nat (length (js "sitting")) <= 65535) by (simpl; lia).
  split; [exact H1|]. split; [exact H2|]. split; [exact H3|].
  exact (levenshtein_triangle (js "kitten") (js "sitten") (js "sitting") H1 H2 H3).
Defined.

(** X4: for strings of at most 65535 characters, [levenshtein] is at
    least the difference of the two lengths. *)
Theorem levenshtein_ge_length_difference (a b : jsstr) :
  Z.of_nat (length a) <= 65535 -> Z.of_nat (length b) <= 65535 ->
  Z.abs (Z.of_nat (length a) - Z.of_nat (length b)) <= levenshtein a b.
Proof.
  intros Ha Hb. rewrite levenshtein_distance by done.
  pose proof (edits_length _ _ _ (distance_upper (rev a) (rev b))) as [H1 H2].
  rewrite !length_rev in *. lia.
Qed.

Lemma levenshtein_ge_length_difference_witness :
  Z.of_nat (length (js "blue whale")) <= 65535 /\
  Z.of_nat (length (js "blue")) <= 65535 /\
  Z.abs (Z.of_nat (length (js "blue whale")) - Z.of_nat (length (js "blue")))
    <= levenshtein (js "blue whale") (js "blue").
Proof.
  assert (H1 : Z.of_nat (length (js "blue whale")) <= 65535) by (simpl; lia).
  assert (H2 : Z.of_nat (length (js "blue")) <= 65535) by (simpl; lia).
  split; [exact H1|]. split; [exact H2|].
  exact (levenshtein_ge_length_difference (js "blue whale") (js "blue") H1 H2).
Defined.

(** ** The range of [levenshtein], whatever the lengths *)

Lemma foldl_invariant {St B} (P : St -> Prop) (f : St -> B -> St) l s :
  P s -> (forall s' x, P s' -> P (f s' x)) -> P (foldl f s l).
Proof.
  intros Hs Hstep. revert s Hs.
  induction l as [|x l IH]; intros s Hs; simpl; [done|].
  apply IH. by apply Hstep.
Qed.

Lemma setCell_in_range dp i j v :
  tableInRange dp -> tableInRange (setCell dp i j v).
Proof.
  intros Hdp. unfold tableInRange, setCell in *.
  apply Forall_lookup. intros k row Hk.
  rewrite list_lookup_alter in Hk. case_decide; subst.
  - destruct (dp !! k) as [row'|] eqn:E; simplify_eq/=.
    pose proof (Forall_lookup_1 _ _ _ _ Hdp E) as Hrow.
    apply Forall_lookup. intros c v' Hc.
    destruct (decide (c = j)) as [->|Hne].
    + assert (Hj : (j < length row')%nat).
      { apply lookup_lt_Some in Hc. by rewrite length_insert in Hc. }
      rewrite list_lookup_insert_eq in Hc by done. simplify_eq.
      unfold ToUint16. apply Z.mod_pos_bound. lia.
    + rewrite list_lookup_insert_ne in Hc by done.
      by eapply (Forall_lookup_1 _ _ _ _ Hrow).
  - by eapply (Forall_lookup_1 _ _ _ _ Hdp).
Qed.

Lemma getCell_in_range dp i j : tableInRange dp -> 0 <= getCell dp i j < 65536.
Proof.
  intros Hdp. unfold getCell.
  destruct (dp !! i) as [row|] eqn:Ei; simpl; [|lia].
  destruct (row !! j) as [v|] eqn:Ej; simpl; [|lia].
  pose proof (Forall_lookup_1 _ _ _ _ Hdp Ei) as Hrow.
  by apply (Forall_lookup_1 _ _ _ _ Hrow Ej).
Qed.

Lemma levenshteinTable_in_range a b : tableInRange (levenshteinTable a b).
Proof.
  unfold levenshteinTable, forUpTo.
  apply (foldl_invariant tableInRange).
  - apply (foldl_invariant tableInRange).
    + apply (foldl_invariant tableInRange).
      * unfold newTable, tableInRange.
        apply Forall_replicate, Forall_replicate. lia.
      * intros dp i Hdp. by apply setCell_in_range.
    + intros dp j Hdp. by apply setCell_in_range.
  - intros dp i Hdp. apply (foldl_invariant tableInRange); [done|].
    intros dp' j Hdp'. by apply setCell_in_range.
Qed.

Lemma levenshtein_nonneg a b : 0 <= levenshtein a b.
Proof.
  unfold levenshtein. repeat case_match; try lia.
  apply getCell_in_range, levenshteinTable_in_range.
Qed.

(** X5: whatever the lengths, [levenshtein] never returns a negative
    number, and when neither string is empty the value returned is a
    16-bit cell: it is below 65536 even where more edit operations are
    needed. *)
Theorem levenshtein_range (a b : jsstr) :
  0 <= levenshtein a b /\
  (a <> [] -> b <> [] -> levenshtein a b < 65536).
Proof.
  split; [apply levenshtein_nonneg|].
  intros Ha Hb. unfold levenshtein.
  destruct a; [done|]. destruct b; [done|]. simpl Nat.eqb. cbv iota.
  apply getCell_in_range, levenshteinTable_in_range.
Qed.

(** ** What [normalize] returns *)

Lemma last_head_rev {A} (l : list A) : last l = head (rev l).
Proof.
  induction l as [|x l _] using rev_ind; [done|].
  by rewrite last_snoc, rev_app_distr.
Qed.

Lemma startsClean_head l c :
  startsClean l -> head l = Some c -> isWhiteSpace c = false.
Proof. destruct l; [done|]. simpl. by intros ? [= ->]. Qed.

Lemma dropWhile_length {A} (p : A -> bool) l :
  (length (dropWhile p l) <= length l)%nat.
Proof.
  destruct (dropWhile_split p l) as [front E].
  rewrite E at 2. rewrite length_app. lia.
Qed.

Lemma trim_length l : (length (trim l) <= length l)%nat.
Proof.
  unfold trim, trimEnd, trimStart. rewrite length_rev.
  etrans; [apply dropWhile_length|]. rewrite length_rev.
  apply dropWhile_length.
Qed.

Lemma toLowerChar_idempotent c : toLowerChar (toLowerChar c) = toLowerChar c.
Proof. destruct c as [[] [] [] [] [] [] [] []]; by vm_compute. Qed.

(** The normalized string is left as it is by [normalize]. *)
Lemma normalize_fixed s : normalize (normalize s) = normalize s.
Proof.
  pose proof (normalize_kept s) as Hkept.
  unfold normalize at 1.
  rewrite (toLowerCase_kept _ Hkept), (stripNonAlnum_kept_id _ Hkept).
  unfold normalize. apply trim_idempotent.
Qed.

Lemma normalize_toLowerCase s : normalize (toLowerCase s) = normalize s.
Proof.
  unfold normalize. f_equal. f_equal. unfold toLowerCase.
  rewrite map_map. apply map_ext. intros c. apply toLowerChar_idempotent.
Qed.

Lemma normalize_head_clean s c :
  head (normalize s) = Some c -> isWhiteSpace c = false.
Proof.
  apply startsClean_head.
  unfold normalize, trim. apply trimEnd_clean, dropWhile_clean.
Qed.

Lemma normalize_last_clean s c :
  last (normalize s) = Some c -> isWhiteSpace c = false.
Proof.
  rewrite last_head_rev. apply startsClean_head.
  unfold normalize, trim, trimEnd. rewrite rev_involutive.
  apply dropWhile_clean.
Qed.

(** X6: whatever the input, [normalize] returns a string made of the
    characters a-z, 0-9 and space only, which neither starts nor ends
    with white space. *)
Theorem normalize_output (s : jsstr) :
  Forall (fun c => isAlnumOrSpace c = true) (normalize s) /\
  (forall c, head (normalize s) = Some c -> isWhiteSpace c = false) /\
  (forall c, last (normalize s) = Some c -> isWhiteSpace c = false).
Proof.
  split; [apply normalize_kept|]. split.
  - apply normalize_head_clean.
  - apply normalize_last_clean.
Qed.

(** X7: [normalize] does not see the case of the letters (lower-casing
    the input first changes nothing), and it never returns a string
    longer than its input. *)
Theorem normalize_case_and_length (s : jsstr) :
  normalize (toLowerCase s) = normalize s /\
  (length (normalize s) <= length s)%nat.
Proof.
  split; [apply normalize_toLowerCase|].
  unfold normalize. etrans; [apply trim_length|].
  unfold stripNonAlnum. etrans; [apply length_filter|].
  unfold toLowerCase. by rewrite length_map.
Qed.

(** ** The phrases of [generateNGrams] *)

Lemma generateNGrams_S words maxN :
  generateNGrams words (S maxN) =
  generateNGrams words maxN ++
  map (fun i => join (js " ") (take (S maxN) (drop i words)))
      (seq 0 (length words - maxN)).
Proof.
  rewrite !generateNGrams_eq. rewrite seq_S, map_app, concat_app. simpl.
  by rewrite app_nil_r.
Qed.

Lemma generateNGrams_length words maxN :
  (maxN <= S (length words))%nat ->
  (2 * length (generateNGrams words maxN)
   = maxN * (2 * length words + 1 - maxN))%nat.
Proof.
  induction maxN as [|n IH]; intros Hle.
  - by rewrite generateNGrams_eq.
  - rewrite generateNGrams_S, length_app, length_map, length_seq.
    specialize (IH ltac:(lia)).
    assert (exists d, length words = (n + d)%nat) as [d Hd]
      by (exists (length words - n)%nat; lia).
    rewrite Hd in *.
    replace (2 * (n + d) + 1 - n)%nat with (n + 2 * d + 1)%nat in IH by lia.
    replace (2 * (n + d) + 1 - S n)%nat with (n + 2 * d)%nat by lia.
    replace (n + d - n)%nat with d by lia. nia.
Qed.

Lemma generateNGrams_saturated words extra :
  generateNGrams words (length words + extra) =
  generateNGrams words (length words).
Proof.
  induction extra as [|k IH]; [by rewrite Nat.add_0_r|].
  rewrite Nat.add_succ_r, generateNGrams_S, IH.
  replace (length words - (length words + k))%nat with 0%nat by lia.
  simpl. by rewrite app_nil_r.
Qed.

(** X8: the strings produced by [generateNGrams(words, maxN)] are exactly
    the runs of 1 to [maxN] consecutive words, joined by single spaces. *)
Theorem generateNGrams_members (words : list jsstr) (maxN : nat) (phrase : jsstr) :
  phrase ∈ generateNGrams words maxN <->
  exists i len : nat,
    (1 <= len <= maxN)%nat /\ (i + len <= length words)%nat /\
    phrase = join (js " ") (take len (drop i words)).
Proof. apply elem_of_generateNGrams. Qed.

(** X9: [generateNGrams] over [n] words produces
    [maxN * (2 n + 1 - maxN) / 2] phrases when [maxN <= n + 1]; a
    [maxN] beyond the number of words adds nothing, and no word gives no
    phrase. *)
Theorem generateNGrams_count (words : list jsstr) (maxN : nat) :
  ((maxN <= S (length words))%nat ->
   (2 * length (generateNGrams words maxN)
    = maxN * (2 * length words + 1 - maxN))%nat) /\
  ((length words <= maxN)%nat ->
   generateNGrams words maxN = generateNGrams words (length words)) /\
  generateNGrams [] maxN = [].
Proof.
  split; [apply generateNGrams_length|]. split.
  - intros Hle.
    replace maxN with (length words + (maxN - length words))%nat by lia.
    apply generateNGrams_saturated.
  - apply (generateNGrams_saturated [] maxN).
Qed.

(** ** More on the score of a record *)

Lemma Math_min_nonneg best d :
  scoreLe (Fin 0) best -> 0 <= d -> scoreLe (Fin 0) (Math_min best (Fin d)).
Proof. destruct best; simpl; lia. Qed.

Lemma phrases_min_nonneg nq l best :
  scoreLe (Fin 0) best ->
  scoreLe (Fin 0)
    (foldl (fun best phrase => Math_min best (Fin (levenshtein phrase nq))) best l).
Proof.
  revert best. induction l as [|p l IH]; intros best Hb; simpl; [done|].
  apply IH, Math_min_nonneg; [done|apply levenshtein_nonneg].
Qed.

Lemma scoreFields_nonneg nq qw it keys : forall best,
  scoreLe (Fin 0) best -> scoreLe (Fin 0) (scoreFields nq qw it keys best).
Proof.
  induction keys as [|k keys IH]; intros best Hb; simpl; [done|].
  case_bool_decide; [by apply IH|].
  case_bool_decide; [simpl; lia|].
  destruct (startsWith (fieldValueOf it k) nq); [simpl; lia|].
  apply IH, Math_min_nonneg; [|apply levenshtein_nonneg].
  apply phrases_min_nonneg.
  destruct (includes (fieldValueOf it k) nq); [|done].
  apply Math_min_nonneg; [done|lia].
Qed.

Lemma rankResults_nil thr limit (scored : list Scored) :
  (forall r, r ∈ scored -> scoreLeb (score r) thr = false) ->
  rankResults thr limit scored = [].
Proof.
  intros Hall. unfold rankResults.
  replace (filter (fun result => Is_true (scoreLeb (score result) thr)) scored)
    with (@nil Scored); [unfold slice0; simpl; apply take_nil|].
  symmetry. induction scored as [|r l IH]; [done|].
  rewrite filter_cons_False.
  - apply IH. intros r' Hr'. apply Hall, elem_of_cons. by right.
  - rewrite (Hall r) by apply list_elem_of_here. simpl. tauto.
Qed.

(** X10: the score of a record is never negative (it is a number from 0
    on, or [Infinity]); so on the non-cached path a negative threshold
    returns no record. *)
Theorem score_nonneg_and_negative_threshold
    (st : State) (items : list Item) (query : jsstr) (keys : list string)
    (t : Z) (limit : option Z) :
  (forall it, scoreLe (Fin 0)
     (scoreOf (normalize query) (splitWhiteSpace (normalize query)) keys it)) /\
  (t < 0 ->
   cache st !! cacheKeyOf (normalize query) (Fin t) (default 5 limit) = None ->
   (fuzzySearch st items query keys (Some (Fin t)) limit).1 = []).
Proof.
  assert (Hnn : forall it, scoreLe (Fin 0)
    (scoreOf (normalize query) (splitWhiteSpace (normalize query)) keys it)).
  { intros it. unfold scoreOf, scoreItem. simpl.
    apply scoreFields_nonneg. done. }
  split; [exact Hnn|]. intros Ht Hmiss.
  destruct (Nat.lt_ge_cases (length (normalize query)) 3) as [Hlen|Hlen].
  { by rewrite fuzzySearch_short. }
  rewrite fuzzySearch_miss by done. cbn [fst effectiveThresholdOf].
  apply rankResults_nil. intros r (it & -> & _)%list_elem_of_fmap.
  specialize (Hnn it). unfold scoreOf in Hnn.
  destruct (score (scoreItem _ _ keys it)) as [v|]; simpl in *; [|done].
  apply Z.leb_gt. lia.
Qed.

Lemma phrases_min_le nq l v0 :
  exists v,
    foldl (fun best phrase => Math_min best (Fin (levenshtein phrase nq)))
          (Fin v0) l = Fin v /\ v <= v0.
Proof.
  revert v0. induction l as [|p l IH]; intros v0; simpl.
  - exists v0. split; [done|lia].
  - destruct (IH (Z.min v0 (levenshtein p nq))) as (v & -> & Hv).
    exists v. split; [done|lia].
Qed.

(** X11: the first listed field that starts with the (non-empty)
    normalized query decides the score: 0 if the field equals the query,
    1 if it only starts with it, whatever the fields listed before it
    have contributed and whatever the fields listed after it hold. *)
Theorem first_prefix_field_decides
    (nq : jsstr) (qw : list jsstr) (ks1 : list string) (key : string)
    (ks2 : list string) (it : Item) :
  nq <> [] ->
  startsWith (fieldValueOf it key) nq = true ->
  (forall k, k ∈ ks1 -> startsWith (fieldValueOf it k) nq = false) ->
  scoreOf nq qw (ks1 ++ key :: ks2) it =
  if bool_decide (fieldValueOf it key = nq) then Fin 0 else Fin 1.
Proof.
  intros Hnq Hpre Hbefore. unfold scoreOf, scoreItem. simpl.
  remember (if bool_decide (fieldValueOf it key = nq) then Fin 0 else Fin 1)
    as res eqn:Hres.
  generalize Infinity as best.
  induction ks1 as [|k ks1 IH]; intros best; simpl.
  - rewrite (bool_decide_eq_false_2 (fieldValueOf it key = [])).
    + by rewrite Hpre, Hres.
    + intros E. rewrite E in Hpre. by destruct nq.
  - assert (Hk : startsWith (fieldValueOf it k) nq = false)
      by (apply Hbefore, list_elem_of_here).
    assert (Hrest : forall k', k' ∈ ks1 ->
      startsWith (fieldValueOf it k') nq = false)
      by (intros k' Hk'; apply Hbefore, elem_of_cons; by right).
    destruct (bool_decide (fieldValueOf it k = [])); [by apply IH|].
    rewrite (bool_decide_eq_false_2 (fieldValueOf it k = nq)).
    + rewrite Hk. by apply IH.
    + intros E. rewrite E, startsWith_refl in Hk. done.
Qed.

Lemma first_prefix_field_decides_witness :
  js "blue whale" <> [] /\
  startsWith (fieldValueOf whaleSongAlbum "title") (js "blue whale") = true /\
  (forall k, k ∈ ["description"%string] ->
     startsWith (fieldValueOf whaleSongAlbum k) (js "blue whale") = false) /\
  scoreOf (js "blue whale") [js "blue"; js "whale"]
          ["description"; "title"]%string whaleSongAlbum = Fin 1.
Proof.
  assert (H1 : js "blue whale" <> []) by discriminate.
  assert (H2 : startsWith (fieldValueOf whaleSongAlbum "title")
                 (js "blue whale") = true) by by_computation.
  assert (H3 : forall k, k ∈ ["description"%string] ->
     startsWith (fieldValueOf whaleSongAlbum k) (js "blue whale") = false).
  { intros k ->%list_elem_of_singleton. by_computation. }
  split; [exact H1|]. split; [exact H2|]. split; [exact H3|].
  exact (first_prefix_field_decides (js "blue whale") [js "blue"; js "whale"]
           ["description"%string] "title"%string [] whaleSongAlbum H1 H2 H3).
Defined.

(** ** The records returned on the non-cached path *)

Lemma length_insertSorted {A} (cmp : A -> A -> Z) x l :
  length (insertSorted cmp x l) = S (length l).
Proof.
  induction l as [|y l IH]; [done|]. simpl.
  destruct (cmp x y <=? 0); simpl; by rewrite ?IH.
Qed.

Lemma length_sortBy {A} (cmp : A -> A -> Z) (l : list A) :
  length (sortBy cmp l) = length l.
Proof.
  induction l as [|x l IH]; [done|].
  unfold sortBy in *. simpl. by rewrite length_insertSorted, IH.
Qed.

Lemma length_slice0 {A} (arr : list A) limit :
  Z.of_nat (length (slice0 arr limit)) =
  if limit <? 0 then Z.max (Z.of_nat (length arr) + limit) 0
  else Z.min limit (Z.of_nat (length arr)).
Proof.
  unfold slice0. rewrite length_take.
  destruct (Z.ltb_spec limit 0); lia.
Qed.

Lemma length_filter_scored nq qw keys thr (items : list Item) :
  length (filter (fun r => Is_true (scoreLeb (score r) thr))
                 (scoreItem nq qw keys <$> items)) =
  length (filter (fun it => Is_true (scoreLeb (scoreOf nq qw keys it) thr)) items).
Proof.
  induction items as [|it items IH]; [done|].
  rewrite fmap_cons, !filter_cons.
  change (score (scoreItem nq qw keys it)) with (scoreOf nq qw keys it).
  destruct (decide (Is_true (scoreLeb (scoreOf nq qw keys it) thr)));
    simpl; by rewrite IH.
Qed.

(** X13: on the non-cached path (normalized query of 3 characters or
    more), every record returned belongs to the collection and has a
    score within the effective threshold; and the number of records
    returned is the smaller of [limit] and the number [n] of records
    within the threshold, or, for a negative [limit], [n + limit] (0 if
    that is negative). *)
Theorem result_members_and_size
    (st : State) (items : list Item) (query : jsstr) (keys : list string)
    (threshold : option Score) (limit : option Z) :
  (3 <= length (normalize query))%nat ->
  cache st !! cacheKeyOf (normalize query)
                 (effectiveThresholdOf threshold (normalize query))
                 (default 5 limit) = None ->
  (forall it, it ∈ (fuzzySearch st items query keys threshold limit).1 ->
     it ∈ items /\
     Is_true (scoreLeb
       (scoreOf (normalize query) (splitWhiteSpace (normalize query)) keys it)
       (effectiveThresholdOf threshold (normalize query)))) /\
  Z.of_nat (length (fuzzySearch st items query keys threshold limit).1) =
  (if default 5 limit <? 0
   then Z.max (Z.of_nat (length (filter
          (fun it => Is_true (scoreLeb
             (scoreOf (normalize query) (splitWhiteSpace (normalize query)) keys it)
             (effectiveThresholdOf threshold (normalize query)))) items))
               + default 5 limit) 0
   else Z.min (default 5 limit)
          (Z.of_nat (length (filter
             (fun it => Is_true (scoreLeb
                (scoreOf (normalize query) (splitWhiteSpace (normalize query)) keys it)
                (effectiveThresholdOf threshold (normalize query)))) items)))).
Proof.
  intros Hlen Hmiss. rewrite fuzzySearch_miss by done. cbn [fst]. split.
  - intros it [i Hi]%list_elem_of_lookup_1.
    apply rankResults_lookup in Hi as (r & Hr & ->).
    apply list_elem_of_lookup_2, ranked_elem in Hr as (it & Hit & -> & Hp).
    done.
  - unfold rankResults.
    by rewrite length_slice0, length_fmap, length_sortBy, length_filter_scored.
Qed.

Lemma result_members_and_size_witness :
  (3 <= length (normalize (js "blue whale")))%nat /\
  cache initialState !! cacheKeyOf (normalize (js "blue whale"))
                 (effectiveThresholdOf None (normalize (js "blue whale")))
                 (default 5 (Some 1)) = None /\
  (forall it,
     it ∈ (fuzzySearch initialState [blueWhale; blueWale; redPanda]
             (js "blue whale") ["title"%string] None (Some 1)).1 ->
     it ∈ [blueWhale; blueWale; redPanda] /\
     Is_true (scoreLeb
       (scoreOf (normalize (js "blue whale"))
          (splitWhiteSpace (normalize (js "blue whale"))) ["title"%string] it)
       (effectiveThresholdOf None (normalize (js "blue whale"))))).
Proof.
  assert (H1 : (3 <= length (normalize (js "blue whale")))%nat)
    by (vm_compute; lia).
  assert (H2 : cache initialState !! cacheKeyOf (normalize (js "blue whale"))
                 (effectiveThresholdOf None (normalize (js "blue whale")))
                 (default 5 (Some 1)) = None) by apply lookup_empty.
  split; [exact H1|]. split; [exact H2|].
  exact (proj1 (result_members_and_size initialState
           [blueWhale; blueWale; redPanda] (js "blue whale")
           ["title"%string] None (Some 1) H1 H2)).
Defined.

(** ** Raising the threshold or the limit *)

Lemma insertSorted_least {A} (cmp : A -> A -> Z) x l :
  (forall z, z ∈ l -> cmp x z <= 0) -> insertSorted cmp x l = x :: l.
Proof.
  destruct l as [|y l]; [done|]. intros Hall. simpl.
  by rewrite (proj2 (Z.leb_le _ _) (Hall y (list_elem_of_here _ _))).
Qed.

Lemma filter_insertSorted_out (P : Scored -> Prop) `{!forall r, Decision (P r)} x l :
  ~ P x -> filter P (insertSorted compareScore x l) = filter P l.
Proof.
  intros Hx. induction l as [|y l IH]; simpl.
  - by rewrite filter_cons_False.
  - destruct (compareScore x y <=? 0).
    + by rewrite filter_cons_False.
    + by rewrite !filter_cons, IH.
Qed.

Lemma filter_insertSorted_in thr x l :
  StronglySorted (fun a b => scoreLe (score a) (score b)) l ->
  Is_true (scoreLeb (score x) thr) ->
  filter (fun r => Is_true (scoreLeb (score r) thr)) (insertSorted compareScore x l)
  = insertSorted compareScore x
      (filter (fun r => Is_true (scoreLeb (score r) thr)) l).
Proof.
  intros Hl Hx. induction Hl as [|y l Hl IH Hy]; simpl.
  - by rewrite filter_cons_True.
  - destruct (Z.leb_spec (compareScore x y) 0) as [Hle|Hgt].
    + rewrite filter_cons_True by done.
      rewrite insertSorted_least; [done|].
      intros z [_ Hz]%list_elem_of_filter.
      apply compareScore_le. apply compareScore_le in Hle.
      apply elem_of_cons in Hz as [->|Hz]; [done|].
      rewrite Forall_forall in Hy. eapply scoreLe_trans; [exact Hle|by apply Hy].
    + assert (Hpy : Is_true (scoreLeb (score y) thr)).
      { eapply scoreLeb_down; [|exact Hx].
        destruct (scoreLe_total (score y) (score x)) as [?|Hc]; [done|].
        apply compareScore_le in Hc. lia. }
      rewrite !filter_cons_True by done. simpl.
      rewrite (proj2 (Z.leb_gt _ _) Hgt). by rewrite IH.
Qed.

Lemma filter_sortBy thr (l : list Scored) :
  filter (fun r => Is_true (scoreLeb (score r) thr)) (sortBy compareScore l)
  = sortBy compareScore (filter (fun r => Is_true (scoreLeb (score r) thr)) l).
Proof.
  induction l as [|x l IH]; [done|].
  change (sortBy compareScore (x :: l))
    with (insertSorted compareScore x (sortBy compareScore l)).
  rewrite filter_cons.
  destruct (decide (Is_true (scoreLeb (score x) thr))) as [Hx|Hx].
  - rewrite filter_insertSorted_in by (apply sortBy_sorted || done).
    by rewrite IH.
  - by rewrite filter_insertSorted_out.
Qed.

Lemma sorted_filter_prefix thr (l : list Scored) :
  StronglySorted (fun a b => scoreLe (score a) (score b)) l ->
  filter (fun r => Is_true (scoreLeb (score r) thr)) l `prefix_of` l.
Proof.
  induction 1 as [|y l Hl IH Hy]; [done|].
  rewrite filter_cons.
  destruct (decide (Is_true (scoreLeb (score y) thr))) as [Hpy|Hpy].
  - by apply prefix_cons.
  - replace (filter (fun r => Is_true (scoreLeb (score r) thr)) l)
      with (@nil Scored); [apply prefix_nil|].
    symmetry. clear IH Hl.
    induction l as [|z l IHl]; [done|].
    apply Forall_cons in Hy as [Hyz Hy].
    rewrite filter_cons_False; [by apply IHl|].
    intros Hz. apply Hpy. by eapply scoreLeb_down.
Qed.

Lemma prefix_take_longer {A} (l1 l2 : list A) k :
  l1 `prefix_of` l2 -> (length l1 <= k)%nat -> l1 `prefix_of` take k l2.
Proof.
  intros [r ->] Hk.
  rewrite take_app_ge by done. by apply prefix_app_r.
Qed.

Lemma slice0_prefix_mono {A} (arr1 arr2 : list A) l1 l2 :
  arr1 `prefix_of` arr2 -> l1 <= l2 -> (l1 < 0 -> l2 < 0) ->
  slice0 arr1 l1 `prefix_of` slice0 arr2 l2.
Proof.
  intros Hpre Hl Hsign. pose proof (prefix_length _ _ Hpre) as Hlen.
  unfold slice0. apply prefix_take_longer.
  - etrans; [apply prefix_take|done].
  - rewrite length_take.
    destruct (Z.ltb_spec l1 0), (Z.ltb_spec l2 0); lia.
Qed.

(** X14: on the non-cached path, raising the threshold (a number or
    [Infinity]), or raising the limit (without passing from a negative
    limit to a non-negative one), only appends records: the sequence
    returned for the smaller values is an initial segment of the one
    returned for the larger values. *)
Theorem result_grows_with_threshold_and_limit
    (st : State) (items : list Item) (query : jsstr) (keys : list string)
    (t1 t2 : Score) (l1 l2 : Z) :
  scoreLe t1 t2 -> l1 <= l2 -> (l1 < 0 -> l2 < 0) ->
  cache st !! cacheKeyOf (normalize query) t1 l1 = None ->
  cache st !! cacheKeyOf (normalize query) t2 l2 = None ->
  (fuzzySearch st items query keys (Some t1) (Some l1)).1
  `prefix_of` (fuzzySearch st items query keys (Some t2) (Some l2)).1.
Proof.
  intros Ht Hl Hsign Hm1 Hm2.
  destruct (Nat.lt_ge_cases (length (normalize query)) 3) as [Hlen|Hlen].
  { by rewrite !fuzzySearch_short. }
  rewrite !fuzzySearch_miss by done. cbn [fst effectiveThresholdOf default].
  unfold rankResults. apply slice0_prefix_mono; [|done|done].
  set (scored := scoreItem (normalize query) (splitWhiteSpace (normalize query))
                   keys <$> items).
  assert (Hsub : filter (fun r => Is_true (scoreLeb (score r) t1)) scored
    = filter (fun r => Is_true (scoreLeb (score r) t1))
        (filter (fun r => Is_true (scoreLeb (score r) t2)) scored)).
  { rewrite list_filter_filter_l; [done|].
    intros r Hr. apply scoreLeb_le. apply scoreLeb_le in Hr.
    by eapply scoreLe_trans. }
  rewrite Hsub, <- filter_sortBy.
  destruct (sorted_filter_prefix t1 _
    (sortBy_sorted (filter (fun r => Is_true (scoreLeb (score r) t2)) scored)))
    as [r Hr].
  rewrite Hr at 2. rewrite fmap_app. by apply prefix_app_r.
Qed.

Lemma result_grows_with_threshold_and_limit_witness :
  scoreLe (Fin 0) (Fin 4) /\ 1 <= 5 /\ (1 < 0 -> 5 < 0) /\
  cache initialState
    !! cacheKeyOf (normalize (js "blue whale")) (Fin 0) 1 = None /\
  cache initialState
    !! cacheKeyOf (normalize (js "blue whale")) (Fin 4) 5 = None /\
  (fuzzySearch initialState [blueWale; blueWhale; redPanda] (js "blue whale")
     ["title"%string] (Some (Fin 0)) (Some 1)).1
  `prefix_of`
  (fuzzySearch initialState [blueWale; blueWhale; redPanda] (js "blue whale")
     ["title"%string] (Some (Fin 4)) (Some 5)).1.
Proof.
  assert (H1 : scoreLe (Fin 0) (Fin 4)) by (simpl; lia).
  assert (H2 : 1 <= 5) by lia.
  assert (H3 : 1 < 0 -> 5 < 0) by lia.
  assert (H4 : cache initialState
                 !! cacheKeyOf (normalize (js "blue whale")) (Fin 0) 1 = None)
    by apply lookup_empty.
  assert (H5 : cache initialState
                 !! cacheKeyOf (normalize (js "blue whale")) (Fin 4) 5 = None)
    by apply lookup_empty.
  split; [exact H1|]. split; [exact H2|]. split; [exact H3|].
  split; [exact H4|]. split; [exact H5|].
  exact (result_grows_with_threshold_and_limit initialState
           [blueWale; blueWhale; redPanda] (js "blue whale") ["title"%string]
           (Fin 0) (Fin 4) 1 5 H1 H2 H3 H4 H5).
Defined.

(** ** The cache across calls *)

Lemma fuzzySearch_query_ext st items q1 q2 keys threshold limit :
  normalize q1 = normalize q2 ->
  fuzzySearch st items q1 keys threshold limit =
  fuzzySearch st items q2 keys threshold limit.
Proof. intros E. unfold fuzzySearch. by rewrite E. Qed.

Lemma fuzzySearch_stores st items query keys threshold limit :
  (3 <= length (normalize query))%nat ->
  cache (fuzzySearch st items query keys threshold limit).2
    !! cacheKeyOf (normalize query)
         (effectiveThresholdOf threshold (normalize query)) (default 5 limit)
  = Some (fuzzySearch st items query keys threshold limit).1.
Proof.
  intros Hlen.
  destruct (cache st !! cacheKeyOf (normalize query)
              (effectiveThresholdOf threshold (normalize query))
              (default 5 limit)) as [cached|] eqn:E.
  - by rewrite (fuzzySearch_hit st _ _ _ _ _ cached).
  - rewrite fuzzySearch_miss by done. cbn [fst snd cache].
    by rewrite lookup_insert_eq.
Qed.

(** X16: a call never removes or replaces an entry of the cache; and
    after a call whose normalized query has 3 characters or more, the
    cache holds the sequence returned, under the key of that call. *)
Theorem cache_keeps_entries_and_stores_result
    (st : State) (items : list Item) (query : jsstr) (keys : list string)
    (threshold : option Score) (limit : option Z) :
  (forall k v, cache st !! k = Some v ->
     cache (fuzzySearch st items query keys threshold limit).2 !! k = Some v) /\
  ((3 <= length (normalize query))%nat ->
   cache (fuzzySearch st items query keys threshold limit).2
     !! cacheKeyOf (normalize query)
          (effectiveThresholdOf threshold (normalize query)) (default 5 limit)
   = Some (fuzzySearch st items query keys threshold limit).1).
Proof.
  split; [|apply fuzzySearch_stores].
  intros k v Hk.
  destruct (Nat.lt_ge_cases (length (normalize query)) 3) as [Hlen|Hlen].
  { by rewrite fuzzySearch_short. }
  destruct (cache st !! cacheKeyOf (normalize query)
              (effectiveThresholdOf threshold (normalize query))
              (default 5 limit)) as [cached|] eqn:E.
  - by rewrite (fuzzySearch_hit st _ _ _ _ _ cached).
  - rewrite fuzzySearch_miss by done. cbn [snd cache].
    rewrite lookup_insert_ne; [done|]. intros <-. congruence.
Qed.

(** X17: the cache is not tied to the records or to the fields.  After a
    call whose normalized query has 3 characters or more, a call with the
    same threshold and limit and a query of the same normalized form
    returns the sequence of the first call and leaves the state as it
    is, whatever collection and whatever fields it is given. *)
Theorem later_call_ignores_items_and_keys
    (st : State) (items items' : list Item) (query query' : jsstr)
    (keys keys' : list string) (threshold : option Score) (limit : option Z) :
  (3 <= length (normalize query))%nat ->
  normalize query' = normalize query ->
  fuzzySearch (fuzzySearch st items query keys threshold limit).2
    items' query' keys' threshold limit
  = ((fuzzySearch st items query keys threshold limit).1,
     (fuzzySearch st items query keys threshold limit).2).
Proof.
  intros Hlen Hq.
  rewrite (fuzzySearch_query_ext _ items' query' query) by done.
  apply fuzzySearch_hit; [done|]. by apply fuzzySearch_stores.
Qed.

Lemma later_call_ignores_items_and_keys_witness :
  (3 <= length (normalize (js "blue whale")))%nat /\
  normalize (js "Blue Whale!") = normalize (js "blue whale") /\
  (fuzzySearch
     (fuzzySearch initialState [blueWhale] (js "blue whale")
        ["title"%string] None None).2
     [redPanda] (js "Blue Whale!") [] None None).1
  = (fuzzySearch initialState [blueWhale] (js "blue whale")
       ["title"%string] None None).1.
Proof.
  assert (H1 : (3 <= length (normalize (js "blue whale")))%nat)
    by (vm_compute; lia).
  assert (H2 : normalize (js "Blue Whale!") = normalize (js "blue whale"))
    by by_computation.
  split; [exact H1|]. split; [by_computation|].
  exact (f_equal fst (later_call_ignores_items_and_keys initialState
           [blueWhale] [redPanda] (js "blue whale") (js "Blue Whale!")
           ["title"%string] [] None None H1 H2)).
Defined.

(** X18: the search sees the query through [normalize] only: searching
    for the normalized form of a query, or for its lower-cased form, is
    the same as searching for the query (same result, same state). *)
Theorem search_sees_normalized_query
    (st : State) (items : list Item) (query : jsstr) (keys : list string)
    (threshold : option Score) (limit : option Z) :
  fuzzySearch st items (normalize query) keys threshold limit
    = fuzzySearch st items query keys threshold limit /\
  fuzzySearch st items (toLowerCase query) keys threshold limit
    = fuzzySearch st items query keys threshold limit.
Proof.
  split; apply fuzzySearch_query_ext.
  - apply normalize_fixed.
  - apply normalize_toLowerCase.
Qed.

(** ** The cache key *)

Lemma pretty_N_char_digit x : isDigit (pretty_N_char x) = true.
Proof. unfold pretty_N_char. by repeat case_match. Qed.

Lemma pretty_N_go_digits x : forall s,
  exists ds,
    list_ascii_of_string (pretty_N_go x s) = ds ++ list_ascii_of_string s /\
    Forall (fun c => isDigit c = true) ds /\
    ((0 < x)%N -> ds <> []).
Proof.
  induction (N.lt_wf_0 x) as [x _ IH]; intros s.
  destruct (decide (x = 0%N)) as [->|Hx].
  - exists []. rewrite pretty_N_go_0. split; [done|]. split; [done|]. lia.
  - rewrite pretty_N_go_step by lia.
    destruct (IH (x `div` 10)%N ltac:(apply N.div_lt; lia)
                (String (pretty_N_char (x `mod` 10)) s)) as (ds & E & Hds & _).
    exists (ds ++ [pretty_N_char (x `mod` 10)]).
    rewrite E. simpl. rewrite <- app_assoc. split; [done|]. split.
    + apply Forall_app. split; [done|].
      constructor; [apply pretty_N_char_digit|done].
    + intros _. by destruct ds.
Qed.

Lemma numberToString_shape z :
  exists ds, ds <> [] /\ Forall (fun c => isDigit c = true) ds /\
    numberToString z = if z <? 0 then "-"%char :: ds else ds.
Proof.
  unfold numberToString, js. destruct z as [|p|p].
  - exists ["0"%char]. repeat split; [done|by repeat constructor].
  - destruct (pretty_N_go_digits (N.pos p) "") as (ds & E & Hds & Hne).
    exists ds. split; [by apply Hne|]. split; [done|].
    rewrite app_nil_r in E. exact E.
  - destruct (pretty_N_go_digits (N.pos p) "") as (ds & E & Hds & Hne).
    exists ds. split; [by apply Hne|]. split; [done|].
    rewrite app_nil_r in E. simpl. f_equal. exact E.
Qed.

Lemma numberToString_inj z z' : numberToString z = numberToString z' -> z = z'.
Proof.
  unfold numberToString, js. intros E.
  apply (f_equal string_of_list_ascii) in E.
  rewrite !string_of_list_ascii_of_string in E.
  by apply (inj pretty).
Qed.

Lemma split_at_dash (a a' x x' : jsstr) :
  "-"%char ∉ a -> "-"%char ∉ a' ->
  a ++ "-"%char :: x = a' ++ "-"%char :: x' -> a = a' /\ x = x'.
Proof.
  revert a'. induction a as [|c a IH]; intros [|c' a'] Ha Ha' E; simpl in E.
  - by injection E.
  - injection E as <- _. destruct Ha'. apply list_elem_of_here.
  - injection E as -> _. destruct Ha. apply list_elem_of_here.
  - injection E as -> E.
    destruct (IH a') as [-> ->]; [| |done|done].
    + intros ?. apply Ha, elem_of_cons. by right.
    + intros ?. apply Ha', elem_of_cons. by right.
Qed.

Lemma digits_no_dash ds :
  Forall (fun c => isDigit c = true) ds -> "-"%char ∉ ds.
Proof.
  intros Hds Hin. rewrite Forall_forall in Hds.
  by specialize (Hds _ Hin).
Qed.

Lemma kept_no_dash s :
  Forall (fun c => isAlnumOrSpace c = true) s -> "-"%char ∉ s.
Proof.
  intros Hs Hin. rewrite Forall_forall in Hs.
  by specialize (Hs _ Hin).
Qed.

Lemma number_pair_inj t l t' l' :
  numberToString t ++ "-"%char :: numberToString l
  = numberToString t' ++ "-"%char :: numberToString l' ->
  t = t' /\ l = l'.
Proof.
  intros E.
  destruct (numberToString_shape t) as (ds & Hne & Hds & Et).
  destruct (numberToString_shape t') as (ds' & Hne' & Hds' & Et').
  assert (Hs : numberToString t = numberToString t' /\
               numberToString l = numberToString l').
  { rewrite Et, Et' in *.
    destruct (t <? 0), (t' <? 0); simpl in E.
    - injection E as E.
      apply split_at_dash in E as [-> ->]; auto using digits_no_dash.
    - destruct ds' as [|d ds']; [done|]. simpl in E. injection E as <- _.
      by apply Forall_cons in Hds' as [? _].
    - destruct ds as [|d ds]; [done|]. simpl in E. injection E as -> _.
      by apply Forall_cons in Hds as [? _].
    - apply split_at_dash in E as [-> ->]; auto using digits_no_dash. }
  destruct Hs as [H1 H2]. split; by apply numberToString_inj.
Qed.

Lemma threshold_pair_inj (t t' : Score) l l' :
  scoreToString t ++ "-"%char :: numberToString l
  = scoreToString t' ++ "-"%char :: numberToString l' ->
  t = t' /\ l = l'.
Proof.
  assert (Hinf : forall n l1 l2,
    numberToString n ++ "-"%char :: numberToString l1
    <> js "Infinity" ++ "-"%char :: numberToString l2).
  { intros n l1 l2 E.
    destruct (numberToString_shape n) as (ds & Hne & Hds & En).
    rewrite En in E. destruct (n <? 0); [by injection E|].
    destruct ds as [|d ds]; [done|]. injection E as -> _.
    by apply Forall_cons in Hds as [? _]. }
  destruct t as [n|], t' as [n'|]; simpl; intros E.
  - apply number_pair_inj in E as [-> ->]. done.
  - by apply Hinf in E.
  - symmetry in E. by apply Hinf in E.
  - split; [done|]. injection E as E. by apply numberToString_inj.
Qed.

(** X19: the cache key tells the calls apart: for thresholds and limits
    that are [Infinity] (the threshold) or integers of absolute value at
    most 2^53 (the integers that [String] writes with all their
    digits), the keys of two calls are equal only if the normalized
    queries, the effective thresholds and the limits are equal. *)
Theorem cacheKeyOf_injective (query query' : jsstr) (t t' : Score) (l l' : Z) :
  safeThreshold t -> safeThreshold t' ->
  safeInteger l -> safeInteger l' ->
  cacheKeyOf (normalize query) t l = cacheKeyOf (normalize query') t' l' ->
  normalize query = normalize query' /\ t = t' /\ l = l'.
Proof.
  intros _ _ _ _.
  unfold cacheKeyOf. change (js "-") with ["-"%char]. simpl.
  intros E.
  apply split_at_dash in E as [Hq E];
    [|apply kept_no_dash, normalize_kept..].
  split; [done|]. by apply threshold_pair_inj.
Qed.

Lemma cacheKeyOf_injective_witness :
  safeThreshold (Fin 4) /\ safeInteger 5 /\
  cacheKeyOf (normalize (js "Blue Whale!")) (Fin 4) 5
    = cacheKeyOf (normalize (js "blue whale")) (Fin 4) 5 /\
  normalize (js "Blue Whale!") = normalize (js "blue whale").
Proof.
  assert (H0 : safeThreshold (Fin 4)) by (vm_compute; discriminate).
  assert (H0' : safeInteger 5) by (vm_compute; discriminate).
  assert (H1 : cacheKeyOf (normalize (js "Blue Whale!")) (Fin 4) 5
               = cacheKeyOf (normalize (js "blue whale")) (Fin 4) 5)
    by by_computation.
  split; [exact H0|]. split; [exact H0'|]. split; [exact H1|].
  exact (proj1 (cacheKeyOf_injective (js "Blue Whale!") (js "blue whale")
                  (Fin 4) (Fin 4) 5 5 H0 H0 H0' H0' H1)).
Defined.

(** ** The score is bounded by every signal *)

Lemma Math_min_Fin best d :
  exists v, Math_min best (Fin d) = Fin v /\ v <= d /\
            forall b, best = Fin b -> v <= b.
Proof.
  destruct best as [b|]; simpl; eexists; (split; [done|]); split; try lia.
  - intros b' [= ->]. lia.
  - intros b' [=].
Qed.

Lemma phrases_min_member nq l p best :
  p ∈ l ->
  exists v,
    foldl (fun best phrase => Math_min best (Fin (levenshtein phrase nq))) best l
    = Fin v /\ v <= levenshtein p nq.
Proof.
  revert best. induction l as [|q l IH]; intros best Hp.
  { by apply elem_of_nil in Hp. }
  simpl. apply elem_of_cons in Hp as [->|Hp]; [|by apply IH].
  destruct (Math_min_Fin best (levenshtein q nq)) as (v0 & -> & Hv0 & _).
  destruct (phrases_min_le nq l v0) as (v & -> & Hv).
  exists v. split; [done|lia].
Qed.

Lemma scoreFields_at_most nq qw it keys c : forall v0,
  v0 <= c ->
  exists v, scoreFields nq qw it keys (Fin v0) = Fin v /\ v <= Z.max c 1.
Proof.
  induction keys as [|k keys IH]; intros v0 Hv0; simpl.
  - exists v0. split; [done|lia].
  - case_bool_decide; [by apply IH|].
    case_bool_decide; [exists 0; split; [done|lia]|].
    destruct (startsWith (fieldValueOf it k) nq); [exists 1; split; [done|lia]|].
    destruct (includes (fieldValueOf it k) nq); simpl.
    + destruct (phrases_min_le nq
        (generateNGrams (splitWhiteSpace (fieldValueOf it k)) (length qw + 1))
        (Z.min v0 2)) as (v & -> & Hv).
      simpl. apply IH. lia.
    + destruct (phrases_min_le nq
        (generateNGrams (splitWhiteSpace (fieldValueOf it k)) (length qw + 1))
        v0) as (v & -> & Hv).
      simpl. apply IH. lia.
Qed.

Lemma scoreOf_bounded_by_signal
    (nq : jsstr) (qw : list jsstr) (keys : list string) (it : Item)
    (key : string) (v : Z) :
  key ∈ keys ->
  fieldValueOf it key <> [] ->
  fieldSignal nq (length qw) (fieldValueOf it key) v ->
  exists s, scoreOf nq qw keys it = Fin s /\ s <= Z.max v 1.
Proof.
  intros Hkey Hne Hsig.
  unfold scoreOf, scoreItem. simpl. generalize Infinity as best.
  induction keys as [|k keys IH]; intros best.
  { by apply elem_of_nil in Hkey. }
  simpl. case_bool_decide as Hempty.
  { apply IH. apply elem_of_cons in Hkey as [->|?]; [done|done]. }
  case_bool_decide; [exists 0; split; [done|lia]|].
  destruct (startsWith (fieldValueOf it k) nq); [exists 1; split; [done|lia]|].
  apply elem_of_cons in Hkey as [<-|Hkey]; [|by apply IH].
  set (b1 := if includes (fieldValueOf it key) nq
             then Math_min best (Fin 2) else best).
  set (grams := generateNGrams (splitWhiteSpace (fieldValueOf it key))
                  (length qw + 1)).
  assert (Hb3 : exists v3,
    Math_min
      (foldl (fun best phrase => Math_min best (Fin (levenshtein phrase nq)))
             b1 grams)
      (Fin (levenshtein (fieldValueOf it key) nq)) = Fin v3 /\ v3 <= v).
  { destruct Hsig as [[Hinc ->]|[(phrase & Hph & ->)| ->]].
    - subst b1. rewrite Hinc.
      destruct (Math_min_Fin best 2) as (v1 & -> & Hv1 & _).
      destruct (phrases_min_le nq grams v1) as (v2 & -> & Hv2).
      simpl. eexists. split; [done|lia].
    - destruct (phrases_min_member nq grams phrase b1) as (v2 & -> & Hv2).
      { by apply elem_of_generateNGrams. }
      simpl. eexists. split; [done|lia].
    - destruct (Math_min_Fin
        (foldl (fun best phrase => Math_min best (Fin (levenshtein phrase nq)))
               b1 grams)
        (levenshtein (fieldValueOf it key) nq)) as (v3 & -> & Hv3 & _).
      by exists v3. }
  destruct Hb3 as (v3 & -> & Hv3). by apply scoreFields_at_most.
Qed.

(** X12: the score of a record is at most every candidate value of every
    listed non-empty field (2 for a field that contains the query, the
    distance of a phrase, the distance of the whole field), except that
    a field starting with the query may fix it at 1: the score is a
    number between 0 and the larger of that value and 1. *)
Theorem score_at_most_each_signal
    (nq : jsstr) (qw : list jsstr) (keys : list string) (it : Item)
    (key : string) (v : Z) :
  key ∈ keys ->
  fieldValueOf it key <> [] ->
  fieldSignal nq (length qw) (fieldValueOf it key) v ->
  exists s, scoreOf nq qw keys it = Fin s /\ 0 <= s <= Z.max v 1.
Proof.
  intros Hkey Hne Hsig.
  destruct (scoreOf_bounded_by_signal nq qw keys it key v Hkey Hne Hsig)
    as (s & Hs & Hle).
  exists s. split; [done|]. split; [|done].
  pose proof (scoreFields_nonneg nq qw it keys Infinity I) as Hnn.
  unfold scoreOf, scoreItem in Hs. simpl in Hs. rewrite Hs in Hnn. done.
Qed.

Lemma score_at_most_each_signal_witness :
  "title"%string ∈ ["title"%string] /\
  fieldValueOf blueWale "title" <> [] /\
  fieldSignal (js "blue whale") (length [js "blue"; js "whale"])
    (fieldValueOf blueWale "title")
    (levenshtein (fieldValueOf blueWale "title") (js "blue whale")) /\
  exists s, scoreOf (js "blue whale") [js "blue"; js "whale"]
              ["title"%string] blueWale = Fin s /\
            0 <= s <= Z.max (levenshtein (fieldValueOf blueWale "title")
                               (js "blue whale")) 1.
Proof.
  assert (H1 : "title"%string ∈ ["title"%string]) by apply list_elem_of_here.
  assert (H2 : fieldValueOf blueWale "title" <> [])
    by (intros E; vm_compute in E; discriminate).
  assert (H3 : fieldSignal (js "blue whale") (length [js "blue"; js "whale"])
    (fieldValueOf blueWale "title")
    (levenshtein (fieldValueOf blueWale "title") (js "blue whale")))
    by (right; right; reflexivity).
  split; [exact H1|]. split; [exact H2|]. split; [exact H3|].
  exact (score_at_most_each_signal (js "blue whale") [js "blue"; js "whale"]
           ["title"%string] blueWale "title"%string _ H1 H2 H3).
Defined.

Lemma slice0_all {A} (arr : list A) limit :
  Z.of_nat (length arr) <= limit -> slice0 arr limit = arr.
Proof.
  intros Hl. unfold slice0.
  rewrite (proj2 (Z.ltb_ge limit 0)) by lia.
  rewrite Z.min_r by lia. rewrite Nat2Z.id. apply firstn_all.
Qed.

(** X15: no record within the threshold is missed.  On the non-cached
    path (normalized query of 3 characters or more), with an effective
    threshold of at least 1 (a number or [Infinity]) and a limit not
    below the number of records,
    every record of the collection with a listed field whose normalized
    value is not empty and is at a distance [levenshtein] within the
    threshold from the normalized query is returned. *)
Theorem close_record_is_returned
    (st : State) (items : list Item) (query : jsstr) (keys : list string)
    (threshold : option Score) (limit : option Z) (it : Item) (key : string) :
  (3 <= length (normalize query))%nat ->
  cache st !! cacheKeyOf (normalize query)
                 (effectiveThresholdOf threshold (normalize query))
                 (default 5 limit) = None ->
  scoreLe (Fin 1) (effectiveThresholdOf threshold (normalize query)) ->
  Z.of_nat (length items) <= default 5 limit ->
  it ∈ items ->
  key ∈ keys ->
  fieldValueOf it key <> [] ->
  scoreLe (Fin (levenshtein (fieldValueOf it key) (normalize query)))
          (effectiveThresholdOf threshold (normalize query)) ->
  it ∈ (fuzzySearch st items query keys threshold limit).1.
Proof.
  intros Hlen Hmiss Hthr Hlim Hit Hkey Hne Hdist.
  rewrite fuzzySearch_miss by done. cbn [fst]. unfold rankResults.
  rewrite slice0_all.
  2:{ rewrite length_fmap, length_sortBy.
      etrans; [|exact Hlim]. apply inj_le.
      etrans; [apply length_filter|]. by rewrite length_fmap. }
  apply list_elem_of_fmap.
  exists (scoreItem (normalize query) (splitWhiteSpace (normalize query)) keys it).
  split; [done|]. apply ranked_elem. exists it. split; [done|]. split; [done|].
  destruct (scoreOf_bounded_by_signal (normalize query)
              (splitWhiteSpace (normalize query)) keys it key
              (levenshtein (fieldValueOf it key) (normalize query)) Hkey Hne)
    as (s & -> & Hs); [by right; right|].
  apply scoreLeb_le.
  destruct (effectiveThresholdOf threshold (normalize query)); simpl in *; lia.
Qed.

Lemma close_record_is_returned_witness :
  (3 <= length (normalize (js "blue whale")))%nat /\
  scoreLe (Fin 1) (effectiveThresholdOf None (normalize (js "blue whale"))) /\
  blueWale ∈ [blueWale; redPanda] /\
  blueWale ∈ (fuzzySearch initialState [blueWale; redPanda] (js "blue whale")
                ["title"%string] None None).1.
Proof.
  assert (H1 : (3 <= length (normalize (js "blue whale")))%nat)
    by (vm_compute; lia).
  assert (H2 : cache initialState !! cacheKeyOf (normalize (js "blue whale"))
                 (effectiveThresholdOf None (normalize (js "blue whale")))
                 (default 5 None) = None) by apply lookup_empty.
  assert (H3 : scoreLe (Fin 1)
                 (effectiveThresholdOf None (normalize (js "blue whale"))))
    by (vm_compute; discriminate).
  assert (H4 : Z.of_nat (length [blueWale; redPanda]) <= default 5 None)
    by (vm_compute; discriminate).
  assert (H5 : blueWale ∈ [blueWale; redPanda]) by apply list_elem_of_here.
  assert (H6 : "title"%string ∈ ["title"%string]) by apply list_elem_of_here.
  assert (H7 : fieldValueOf blueWale "title" <> [])
    by (intros E; vm_compute in E; discriminate).
  assert (H8 : scoreLe
                 (Fin (levenshtein (fieldValueOf blueWale "title")
                         (normalize (js "blue whale"))))
                 (effectiveThresholdOf None (normalize (js "blue whale"))))
    by (vm_compute; discriminate).
  split; [exact H1|]. split; [exact H3|]. split; [exact H5|].
  exact (close_record_is_returned initialState [blueWale; redPanda]
           (js "blue whale") ["title"%string] None None blueWale
           "title"%string H1 H2 H3 H4 H5 H6 H7 H8).
Defined.

(** ** The words of a normalized string *)

Lemma splitAux_not_nil s : forall cur inSep, splitAux cur inSep s <> [].
Proof.
  induction s as [|c s IH]; intros cur inSep; simpl; [done|].
  destruct (isWhiteSpace c); [destruct inSep|]; try done; apply IH.
Qed.

Lemma splitAux_words s : forall cur inSep,
  Forall (fun c => isWhiteSpace c = false) cur ->
  (cur = [] -> s <> [] /\ (inSep = false -> startsClean s)) ->
  (forall c, last s = Some c -> isWhiteSpace c = false) ->
  (inSep = true -> cur = []) ->
  Forall (fun w => w <> [] /\ Forall (fun c => isWhiteSpace c = false) w)
         (splitAux cur inSep s).
Proof.
  induction s as [|c s IH]; intros cur inSep Hcur Hstart Hlast Hsep; simpl.
  - constructor; [|done]. split; [|done].
    intros E. by destruct (Hstart E) as [? _].
  - assert (Hlast' : forall c', last s = Some c' -> isWhiteSpace c' = false).
    { intros c' Hc'. apply Hlast. destruct s; [done|]. by rewrite last_cons_cons. }
    destruct (isWhiteSpace c) eqn:Hc.
    + assert (Hs : s <> []).
      { intros ->. specialize (Hlast c eq_refl). congruence. }
      assert (Hrest : Forall (fun w => w <> [] /\
                        Forall (fun c => isWhiteSpace c = false) w)
                      (splitAux [] true s)).
      { apply IH; [done| |done|done]. intros _. split; [done|]. done. }
      destruct inSep; [done|].
      constructor; [|done]. split; [|done].
      intros E. destruct (Hstart E) as [_ Hclean].
      specialize (Hclean eq_refl). simpl in Hclean. congruence.
    + apply IH; [|by destruct cur|done|done].
      apply Forall_app. split; [done|]. by constructor.
Qed.

(** X20: [split(/\s+/)] always gives at least one piece; and the pieces
    of a normalized string that is not empty are words: none of them is
    empty and none contains white space. *)
Theorem words_of_normalized (s : jsstr) :
  splitWhiteSpace s <> [] /\
  (normalize s <> [] ->
   Forall (fun w => w <> [] /\ Forall (fun c => isWhiteSpace c = false) w)
          (splitWhiteSpace (normalize s))).
Proof.
  split; [apply splitAux_not_nil|].
  intros Hne.
  apply splitAux_words; [done| |apply normalize_last_clean|done].
  intros _. split; [done|]. intros _.
  pose proof (normalize_head_clean s) as Hhead.
  destruct (normalize s) as [|c l]; [done|]. simpl. by apply Hhead.
Qed.
